(** * whisper_json_to_pdf: bucketizer and text normalizer

    A shallow embedding of the core of [whisper_json_to_pdf.py]:
    [fmt_time], [light_cleanup] (with the regular expressions it is built
    from), [load_whisper_json] from the parsed file on, [build_blocks],
    the empty-result check of [main] and the rows [make_pdf] lays out.

    Modelling conventions.
    - A Python [str] is a [list ascii]; a character is its code point, so
      the model covers the strings whose code points are below 256
      (Latin-1).  The classes [\s], [\w] and lower-casing are the ones
      Python 3 uses on those code points.
    - A Python [float] holding a time is an exact rational ([Q]); rounding
      error of the float arithmetic is not modelled.  [math.floor] and
      [math.ceil] return Python integers, so bin boundaries are [Z].
    - [re.sub] and [re.search] are interpreted by a small backtracking
      matcher ([Re.run]) over a regex syntax tree; every pattern of the
      source is written as such a tree next to its source text.
    - The file read by [json.load] is a value of type [json]; [float] of
      a string and [str] of a value that is no string are left open, as
      variables of the section that defines the loader. *)

From Stdlib Require DecimalPos.
From Stdlib Require Import Ascii String DecimalString.
From Stdlib Require Import List Sorted Bool Arith ZArith QArith Qround Lia Lqa.
Import ListNotations.

Close Scope Q_scope.
Open Scope nat_scope.
Open Scope list_scope.
Open Scope bool_scope.

(** ** Characters and strings *)

Definition str := list ascii.

(** A string literal as a list of characters. *)
Definition py (s : string) : str := list_ascii_of_string s.

Definition code (c : ascii) : N := N_of_ascii c.

Definition in_range (lo hi : N) (c : ascii) : bool :=
  N.leb lo (code c) && N.leb (code c) hi.

(** [str.isspace] / [\s] on code points below 256:
    TAB..CR, FS..US, SPACE, NEL (0x85) and NBSP (0xA0). *)
Definition is_space (c : ascii) : bool :=
  in_range 9 13 c || in_range 28 32 c
  || N.eqb (code c) 133 || N.eqb (code c) 160.

Definition is_digit (c : ascii) : bool := in_range 48 57 c.
Definition is_upper_az (c : ascii) : bool := in_range 65 90 c.
Definition is_lower_az (c : ascii) : bool := in_range 97 122 c.

(** [[A-Za-z]] *)
Definition is_ascii_letter (c : ascii) : bool :=
  is_upper_az c || is_lower_az c.

(** [\w] on code points below 256: alphanumerics (in the sense of
    [str.isalnum]) and the underscore. *)
Definition is_word (c : ascii) : bool :=
  is_digit c || is_ascii_letter c || N.eqb (code c) 95
  || N.eqb (code c) 170 || in_range 178 179 c || N.eqb (code c) 181
  || in_range 185 186 c || in_range 188 190 c
  || in_range 192 214 c || in_range 216 246 c || in_range 248 255 c.

(** Lower-casing of one code point (as the matcher does under [(?i)]). *)
Definition lower (c : ascii) : ascii :=
  if is_upper_az c || in_range 192 214 c || in_range 216 222 c
  then ascii_of_N (code c + 32)%N else c.

(** [[,.;:!?]] *)
Definition is_punct (c : ascii) : bool :=
  match c with
  | ","%char | "."%char | ";"%char | ":"%char | "!"%char | "?"%char => true
  | _ => false
  end.

(** [[ ,;:]] *)
Definition is_delim (c : ascii) : bool :=
  match c with
  | " "%char | ","%char | ";"%char | ":"%char => true
  | _ => false
  end.

(** [[.!?]] *)
Definition is_terminal (c : ascii) : bool :=
  match c with
  | "."%char | "!"%char | "?"%char => true
  | _ => false
  end.

Definition newline : ascii := ascii_of_N 10.

(** [str.strip()] *)
Fixpoint lstrip (s : str) : str :=
  match s with
  | c :: s' => if is_space c then lstrip s' else s
  | [] => []
  end.

Definition rstrip (s : str) : str := rev (lstrip (rev s)).

Definition strip (s : str) : str := rstrip (lstrip s).

(** ** The regular-expression matcher *)

Module Re.

(** The fragment of Python's pattern syntax the program uses. *)
Inductive regex : Type :=
| Eps                       (* empty pattern *)
| Chr (c : ascii)           (* a literal character *)
| Cls (p : ascii -> bool)   (* a character class: [...], \s, \w *)
| Bol                       (* ^ *)
| Eol                       (* $ *)
| WordB                     (* \b *)
| Seq (r1 r2 : regex)
| Alt (r1 r2 : regex)       (* r1|r2, r1 tried first *)
| Plus (r : regex)          (* r+, greedy *)
| Grp (n : nat) (r : regex) (* capturing group number n *)
| Ref (n : nat).            (* backreference \n *)

(** [r*], greedy: one or more repetitions are tried before none. *)
Definition Star (r : regex) : regex := Alt (Plus r) Eps.

(** A literal word, character by character. *)
Fixpoint Lit (w : str) : regex :=
  match w with
  | [] => Eps
  | [c] => Chr c
  | c :: w' => Seq (Chr c) (Lit w')
  end.

(** The matcher's position in the subject string: the characters before
    the position (nearest first), the characters from the position on,
    and the text of the groups captured so far. *)
Record mstate : Type := MState {
  pre : str;
  suf : str;
  caps : list (nat * str)
}.

Fixpoint get_cap (n : nat) (cs : list (nat * str)) : option str :=
  match cs with
  | [] => None
  | (m, w) :: cs' => if Nat.eqb n m then Some w else get_cap n cs'
  end.

Definition set_cap (n : nat) (w : str) (st : mstate) : mstate :=
  MState (pre st) (suf st) ((n, w) :: caps st).

(** The text consumed between two positions of one match. *)
Definition consumed (st st' : mstate) : str :=
  rev (firstn (length (pre st') - length (pre st)) (pre st')).

Definition word_at (o : option ascii) : bool :=
  match o with Some c => is_word c | None => false end.

Definition eq_char (ic : bool) (c x : ascii) : bool :=
  if ic then Ascii.eqb (lower c) (lower x) else Ascii.eqb c x.

(** [w] is a prefix of [s] (modulo case under [ic]): the rest of [s]. *)
Fixpoint eat (ic : bool) (w : str) (p s : str) : option (str * str) :=
  match w with
  | [] => Some (p, s)
  | c :: w' =>
      match s with
      | x :: s' => if eq_char ic c x then eat ic w' (x :: p) s' else None
      | [] => None
      end
  end.

Definition orelse {A} (a b : option A) : option A :=
  match a with Some _ => a | None => b end.

(** The loop of a greedy repetition: [step] matches one iteration; after
    it another iteration is tried first (only when the iteration consumed
    something), then the continuation [k].  [fuel] bounds the number of
    iterations and is always taken larger than the text left. *)
Definition plus_loop
    (step : mstate -> (mstate -> option mstate) -> option mstate)
    (k : mstate -> option mstate) : nat -> mstate -> option mstate :=
  fix loop (fuel : nat) (st0 : mstate) {struct fuel} : option mstate :=
    match fuel with
    | O => None
    | S fuel' =>
        step st0 (fun st' =>
          orelse
            (if Nat.ltb (length (suf st')) (length (suf st0))
             then loop fuel' st' else None)
            (k st'))
    end.

(** Backtracking matcher in continuation-passing style: [run ic r st k]
    matches [r] at [st] and hands the position reached to [k]; when [k]
    fails the next alternative of [r] is tried, in Python's priority
    order.  [ic] is the IGNORECASE flag. *)
Fixpoint run (ic : bool) (r : regex) (st : mstate)
    (k : mstate -> option mstate) {struct r} : option mstate :=
  match r with
  | Eps => k st
  | Chr c =>
      match suf st with
      | x :: s' =>
          if eq_char ic c x then k (MState (x :: pre st) s' (caps st))
          else None
      | [] => None
      end
  | Cls p =>
      match suf st with
      | x :: s' =>
          if p x then k (MState (x :: pre st) s' (caps st)) else None
      | [] => None
      end
  | Bol => match pre st with [] => k st | _ :: _ => None end
  | Eol =>
      match suf st with
      | [] => k st
      | [x] => if Ascii.eqb x newline then k st else None
      | _ => None
      end
  | WordB =>
      if xorb (word_at (hd_error (pre st))) (word_at (hd_error (suf st)))
      then k st else None
  | Seq r1 r2 => run ic r1 st (fun st' => run ic r2 st' k)
  | Alt r1 r2 => orelse (run ic r1 st k) (run ic r2 st k)
  | Plus r1 => plus_loop (run ic r1) k (S (length (suf st))) st
  | Grp n r1 =>
      run ic r1 st (fun st' => k (set_cap n (consumed st st') st'))
  | Ref n =>
      match get_cap n (caps st) with
      | Some w =>
          match eat ic w (pre st) (suf st) with
          | Some (p', s') => k (MState p' s' (caps st))
          | None => None
          end
      | None => None
      end
  end.

(** [pattern.match] at one position of the subject. *)
Definition match_at (ic : bool) (r : regex) (p s : str) : option mstate :=
  run ic r (MState p s []) Some.

(** [re.search]: the leftmost position at which the pattern matches. *)
Fixpoint search_from (ic : bool) (r : regex) (p s : str) : option mstate :=
  match match_at ic r p s with
  | Some st => Some st
  | None =>
      match s with
      | [] => None
      | c :: s' => search_from ic r (c :: p) s'
      end
  end.

Definition search (ic : bool) (r : regex) (s : str) : option mstate :=
  search_from ic r [] s.

(** Replacement templates: literal characters and group references. *)
Inductive titem : Type :=
| TChr (c : ascii)
| TGrp (n : nat).

Definition expand (tpl : list titem) (st : mstate) : str :=
  flat_map (fun it =>
    match it with
    | TChr c => [c]
    | TGrp n => match get_cap n (caps st) with Some w => w | None => [] end
    end) tpl.

(** [re.sub]: replace the non-overlapping matches, scanning left to right.
    [skip] counts the characters of the current match still to step over;
    an empty match is replaced and the scan moves one character on. *)
Fixpoint sub_go (ic : bool) (r : regex) (tpl : list titem)
    (skip : nat) (p s : str) {struct s} : str :=
  match skip with
  | S n =>
      match s with
      | [] => []
      | c :: s' => sub_go ic r tpl n (c :: p) s'
      end
  | O =>
      match match_at ic r p s with
      | Some st =>
          expand tpl st ++
          match length s - length (suf st), s with
          | _, [] => []
          | O, c :: s' => c :: sub_go ic r tpl 0 (c :: p) s'
          | S n, c :: s' => sub_go ic r tpl n (c :: p) s'
          end
      | None =>
          match s with
          | [] => []
          | c :: s' => c :: sub_go ic r tpl 0 (c :: p) s'
          end
      end
  end.

Definition sub (ic : bool) (r : regex) (tpl : list titem) (s : str) : str :=
  sub_go ic r tpl 0 [] s.

End Re.

(** ** Helpers: time and text cleanup *)





Import Re.

(** [r1 r2 ... rn] *)
Fixpoint seqs (rs : list regex) : regex :=
  match rs with
  | [] => Eps
  | [r] => r
  | r :: rs' => Seq r (seqs rs')
  end.

(** ["|".join(rs)] *)
Fixpoint alts (rs : list regex) : regex :=
  match rs with
  | [] => Eps
  | [r] => r
  | r :: rs' => Alt r (alts rs')
  end.

(** [\b<word><last>+\b]: a word whose last letter may be repeated. *)
Definition elongated (w : string) (last : ascii) : regex :=
  seqs [WordB; Lit (py w); Plus (Chr last); WordB].

(** [\b<phrase>\b] *)
Definition phrase (w : string) : regex :=
  seqs [WordB; Lit (py w); WordB].

Definition FILLER_WORDS : list regex :=
  [ elongated "u" "m";     (* \bum+\b *)
    elongated "u" "h";     (* \buh+\b *)
    elongated "e" "r";     (* \ber+\b *)
    elongated "a" "h";     (* \bah+\b *)
    phrase "like";         (* \blike\b *)
    phrase "you know";     (* \byou know\b *)
    phrase "kind of";      (* \bkind of\b *)
    phrase "sort of";      (* \bsort of\b *)
    phrase "I mean" ].     (* \bI mean\b *)

(** [(?i)(?:um+|...)], compiled once by the module. *)
Definition FILLER_RE : regex := alts FILLER_WORDS.

(** [\s+] *)
Definition re_spaces : regex := Plus (Cls is_space).

(** [(?i)(^|[ ,;:])(<fillers>)([ ,;:]|$)] *)
Definition re_filler : regex :=
  seqs [ Grp 1 (Alt Bol (Cls is_delim));
         Grp 2 (alts FILLER_WORDS);
         Grp 3 (Alt (Cls is_delim) Eol) ].

(** [(?i)\b(\w+)\s+\1\b] *)
Definition re_stutter : regex :=
  seqs [ WordB; Grp 1 (Plus (Cls is_word)); Plus (Cls is_space);
         Ref 1; WordB ].

(** [\s+([,.;:!?])] *)
Definition re_space_punct : regex :=
  seqs [ Plus (Cls is_space); Grp 1 (Cls is_punct) ].

(** [([,.;:!?])([A-Za-z])] *)
Definition re_punct_letter : regex :=
  seqs [ Grp 1 (Cls is_punct); Grp 2 (Cls is_ascii_letter) ].

(** [([,.;:!?])\1+] *)
Definition re_punct_run : regex :=
  seqs [ Grp 1 (Cls is_punct); Plus (Ref 1) ].

(** [[.!?]\s*$] *)
Definition re_terminal : regex :=
  seqs [ Cls is_terminal; Star (Cls is_space); Eol ].

Definition space : ascii := " "%char.
Definition period : ascii := "."%char.

(** Normalize whitespace: [re.sub(r"\s+", " ", t)]. *)
Definition collapse_spaces (t : str) : str :=
  sub false re_spaces [TChr space] t.

(** Remove filler: [re.sub(<re_filler>, r"\1\3", t)]. *)
Definition remove_fillers (t : str) : str :=
  sub true re_filler [TGrp 1; TGrp 3] t.

(** De-stutter: [re.sub(r"(?i)\b(\w+)\s+\1\b", r"\1", t)]. *)
Definition destutter (t : str) : str :=
  sub true re_stutter [TGrp 1] t.

(** Fix spacing before punctuation: [re.sub(r"\s+([,.;:!?])", r"\1", t)]. *)
Definition tighten_punct (t : str) : str :=
  sub false re_space_punct [TGrp 1] t.

(** Space after punctuation before a letter:
    [re.sub(r"([,.;:!?])([A-Za-z])", r"\1 \2", t)]. *)
Definition space_after_punct (t : str) : str :=
  sub false re_punct_letter [TGrp 1; TChr space; TGrp 2] t.

(** Clean double punctuation: [re.sub(r"([,.;:!?])\1+", r"\1", t)]. *)
Definition dedupe_punct (t : str) : str :=
  sub false re_punct_run [TGrp 1] t.

(** [re.search(r"[.!?]\s*$", t)] as a truth value. *)
Definition has_terminal (t : str) : bool :=
  match search false re_terminal t with Some _ => true | None => false end.

(** The text just before the final [if] of [light_cleanup]. *)
Definition rewrite_rules (text : str) : str :=
  let t := strip text in
  let t := collapse_spaces t in
  let t := remove_fillers t in
  let t := strip (collapse_spaces t) in
  let t := destutter t in
  let t := tighten_punct t in
  let t := space_after_punct t in
  let t := dedupe_punct t in
  t.

(** The final [if]: add a period to a long chunk without terminal
    punctuation. *)
Definition add_period (t : str) : str :=
  match t with
  | [] => t
  | _ :: _ =>
      if negb (has_terminal t)
      then if Nat.ltb 40 (length t) then t ++ [period] else t
      else t
  end.

Definition light_cleanup (text : str) : str :=
  add_period (rewrite_rules text).

(** ** Data structures *)

Record Segment : Type := mkSegment {
  seg_start : Q;
  seg_end : Q;
  seg_text : str
}.

(** [start] and [end] of a block are the integers [build_blocks] computes. *)
Record Block : Type := mkBlock {
  blk_start : Z;
  blk_end : Z;
  blk_text : str
}.

Inductive exn : Type :=
| ZeroDivisionError
| SystemExit (msg : str).

Inductive outcome (A : Type) : Type :=
| Returns (a : A)
| Raises (e : exn).

Arguments Returns {A} a.
Arguments Raises {A} e.

(** ** Grouping segments into blocks *)

Definition Qlt_bool (a b : Q) : bool := negb (Qle_bool b a).

(** [max(s.end for s in segments)], for a non-empty list. *)
Definition max_end (s0 : Segment) (rest : list Segment) : Q :=
  fold_left (fun m s => if Qlt_bool m (seg_end s) then seg_end s else m)
            rest (seg_end s0).

(** [" ".join(texts)] *)
Fixpoint join (sep : str) (texts : list str) : str :=
  match texts with
  | [] => []
  | [t] => t
  | t :: texts' => t ++ sep ++ join sep texts'
  end.

(** [while seg_idx < len(segments) and segments[seg_idx].end <= b_start:
       seg_idx += 1], with [rest = segments[seg_idx:]]. *)
Fixpoint advance (rest : list Segment) (b_start : Z) (seg_idx : nat) : nat :=
  match rest with
  | s :: rest' =>
      if Qle_bool (seg_end s) (inject_Z b_start)
      then advance rest' b_start (S seg_idx)
      else seg_idx
  | [] => seg_idx
  end.

(** [while j < len(segments) and segments[j].start < b_end: ...; j += 1],
    with [rest = segments[j:]]: the texts appended. *)
Fixpoint collect (rest : list Segment) (b_end : Z) : list str :=
  match rest with
  | s :: rest' =>
      if Qlt_bool (seg_start s) (inject_Z b_end)
      then match seg_text s with
           | [] => collect rest' b_end
           | _ :: _ => seg_text s :: collect rest' b_end
           end
      else []
  | [] => []
  end.

Definition bin_start (bin0 interval_s : Z) (i : nat) : Z :=
  (bin0 + Z.of_nat i * interval_s)%Z.

(** The block a bin contributes, if any. *)
Definition block_of (b_start b_end : Z) (texts : list str) : list Block :=
  match texts with
  | [] => []
  | _ :: _ =>
      let raw := join [space] texts in
      let cleaned := light_cleanup raw in
      match cleaned with
      | [] => []
      | _ :: _ => [mkBlock b_start b_end cleaned]
      end
  end.

(** One iteration of [for i in range(nbins)]; the loop state is
    [(seg_idx, blocks)]. *)
Definition bin_step (segments : list Segment) (interval_s bin0 : Z)
    (state : nat * list Block) (i : nat) : nat * list Block :=
  let (seg_idx, blocks) := state in
  let b_start := bin_start bin0 interval_s i in
  let b_end := (b_start + interval_s)%Z in
  let seg_idx := advance (skipn seg_idx segments) b_start seg_idx in
  let texts := collect (skipn seg_idx segments) b_end in
  (seg_idx, blocks ++ block_of b_start b_end texts).

(** [math.floor(t_start / interval_s) * interval_s] *)
Definition anchor (t_start : Q) (interval_s : Z) : Z :=
  (Qfloor (t_start / inject_Z interval_s) * interval_s)%Z.

(** [int(math.ceil((t_end - bin0) / interval_s))] *)
Definition bin_count (t_end : Q) (bin0 interval_s : Z) : Z :=
  Qceiling ((t_end - inject_Z bin0) / inject_Z interval_s).

Definition build_blocks (segments : list Segment) (interval_s : Z)
    : outcome (list Block) :=
  match segments with
  | [] => Returns []
  | s0 :: rest =>
      if (interval_s =? 0)%Z then Raises ZeroDivisionError
      else
        let t_start := seg_start s0 in
        let t_end := max_end s0 rest in
        let bin0 := anchor t_start interval_s in
        let nbins := bin_count t_end bin0 interval_s in
        Returns (snd (fold_left (bin_step segments interval_s bin0)
                                (seq 0 (Z.to_nat nbins)) (0, [])))
  end.

(** ** The part of [main] between loading and rendering *)

Definition no_text_msg : str := py "No transcript text found in JSON segments.".

(** [blocks = build_blocks(segments, interval_s=args.interval)] followed by
    [if not blocks: raise SystemExit(...)]; the blocks returned are the
    ones handed to [make_pdf]. *)
Definition main_blocks (segments : list Segment) (interval : Z)
    : outcome (list Block) :=
  match build_blocks segments interval with
  | Raises e => Raises e
  | Returns blocks =>
      match blocks with
      | [] => Raises (SystemExit no_text_msg)
      | _ :: _ => Returns blocks
      end
  end.

(** ** Views of the scan used to state its properties *)

(** The loop state [(seg_idx, blocks)] after the first [n] bins. *)
Definition scan (segments : list Segment) (interval_s bin0 : Z) (n : nat)
    : nat * list Block :=
  fold_left (bin_step segments interval_s bin0) (seq 0 n) (0, []).

(** The value of [seg_idx] while bin [i] collects its texts. *)
Definition cursor (segments : list Segment) (interval_s bin0 : Z) (i : nat)
    : nat :=
  let seg_idx := fst (scan segments interval_s bin0 i) in
  advance (skipn seg_idx segments) (bin_start bin0 interval_s i) seg_idx.

(** The number of segments the inner [while j ...] loop steps over. *)
Fixpoint reach (rest : list Segment) (b_end : Z) : nat :=
  match rest with
  | s :: rest' =>
      if Qlt_bool (seg_start s) (inject_Z b_end)
      then S (reach rest' b_end) else 0
  | [] => 0
  end.

(** Segment number [idx] is visited by the inner loop of bin [i]. *)
Definition visited (segments : list Segment) (interval_s bin0 : Z)
    (i idx : nat) : bool :=
  let c := cursor segments interval_s bin0 i in
  let b_end := (bin_start bin0 interval_s i + interval_s)%Z in
  Nat.leb c idx && Nat.ltb idx (c + reach (skipn c segments) b_end).

(** The list [texts] of bin [i]. *)
Definition bin_texts (segments : list Segment) (interval_s bin0 : Z)
    (i : nat) : list str :=
  collect (skipn (cursor segments interval_s bin0 i) segments)
          (bin_start bin0 interval_s i + interval_s)%Z.

(** The block list bin [i] contributes: empty or one block. *)
Definition bin_block (segments : list Segment) (interval_s bin0 : Z)
    (i : nat) : list Block :=
  block_of (bin_start bin0 interval_s i)
           (bin_start bin0 interval_s i + interval_s)%Z
           (bin_texts segments interval_s bin0 i).

(** Bin [i] is not filtered out. *)
Definition emits (segments : list Segment) (interval_s bin0 : Z)
    (i : nat) : bool :=
  match bin_block segments interval_s bin0 i with
  | [] => false
  | _ :: _ => true
  end.


(** Segments ordered by [start], ascending. *)
Definition starts_sorted (segments : list Segment) : Prop :=
  StronglySorted (fun a b => (seg_start a <= seg_start b)%Q) segments.

(** What a block emitted for bin [i] looks like. *)
Definition block_at (bin0 k : Z) (b : Block) (i : nat) : Prop :=
  blk_start b = bin_start bin0 k i /\ blk_end b = (blk_start b + k)%Z.



Fixpoint str_eqb (a b : str) : bool :=
  match a, b with
  | [], [] => true
  | x :: a', y :: b' => Ascii.eqb x y && str_eqb a' b'
  | _, _ => false
  end.

(** A greedy run of one or more characters of a class, then [k]: what
    [Plus (Cls p)] computes, by recursion on the text. *)
Fixpoint many1 (p : ascii -> bool) (k : Re.mstate -> option Re.mstate)
    (pr sf : str) (cs : list (nat * str)) : option Re.mstate :=
  match sf with
  | x :: sf' =>
      if p x
      then Re.orelse (many1 p k (x :: pr) sf' cs)
                     (k (Re.MState (x :: pr) sf' cs))
      else None
  | [] => None
  end.

(** [$] as the last item of a pattern. *)
Definition at_eol (st : Re.mstate) : option Re.mstate :=
  Re.run false Re.Eol st Some.

(** The text ends in [.], [!] or [?], optionally followed by whitespace. *)
Definition ends_terminal (t : str) : Prop :=
  exists (p : str) (c : ascii) (ws : str),
    t = p ++ c :: ws /\ is_terminal c = true /\ forallb is_space ws = true.

(** Declarative reading of the patterns: [matches ic r st st'] when [r]
    can match from position [st] to position [st']. *)
Inductive matches (ic : bool) : regex -> mstate -> mstate -> Prop :=
| M_Eps : forall st, matches ic Eps st st
| M_Chr : forall c x pr sf cs,
    eq_char ic c x = true ->
    matches ic (Chr c) (MState pr (x :: sf) cs) (MState (x :: pr) sf cs)
| M_Cls : forall (p : ascii -> bool) x pr sf cs,
    p x = true ->
    matches ic (Cls p) (MState pr (x :: sf) cs) (MState (x :: pr) sf cs)
| M_Bol : forall st, pre st = [] -> matches ic Bol st st
| M_Eol : forall st,
    suf st = [] \/ suf st = [newline] -> matches ic Eol st st
| M_WordB : forall st,
    xorb (word_at (hd_error (pre st))) (word_at (hd_error (suf st))) = true ->
    matches ic WordB st st
| M_Seq : forall r1 r2 st st1 st2,
    matches ic r1 st st1 -> matches ic r2 st1 st2 ->
    matches ic (Seq r1 r2) st st2
| M_AltL : forall r1 r2 st st',
    matches ic r1 st st' -> matches ic (Alt r1 r2) st st'
| M_AltR : forall r1 r2 st st',
    matches ic r2 st st' -> matches ic (Alt r1 r2) st st'
| M_Plus1 : forall r st st',
    matches ic r st st' -> matches ic (Plus r) st st'
| M_PlusS : forall r st st1 st2,
    matches ic r st st1 -> matches ic (Plus r) st1 st2 ->
    matches ic (Plus r) st st2
| M_Grp : forall n r st st',
    matches ic r st st' ->
    matches ic (Grp n r) st (set_cap n (consumed st st') st')
| M_Ref : forall n st w p' s',
    get_cap n (caps st) = Some w ->
    eat ic w (pre st) (suf st) = Some (p', s') ->
    matches ic (Ref n) st (MState p' s' (caps st)).

(** The text a match steps over. *)
Definition spans (st st' : mstate) (w : str) : Prop :=
  pre st' = rev w ++ pre st /\ suf st = w ++ suf st'.

(** Patterns without capturing groups leave the captures alone. *)
Fixpoint group_free (r : regex) : bool :=
  match r with
  | Seq r1 r2 | Alt r1 r2 => group_free r1 && group_free r2
  | Plus r1 => group_free r1
  | Grp _ _ => false
  | _ => true
  end.

(** A lower bound on the number of characters a pattern consumes. *)
Fixpoint min_len (r : regex) : nat :=
  match r with
  | Chr _ | Cls _ => 1
  | Seq r1 r2 => min_len r1 + min_len r2
  | Alt r1 r2 => Nat.min (min_len r1) (min_len r2)
  | Plus r1 | Grp _ r1 => min_len r1
  | _ => 0
  end.

(** One delimiter of a filler: a character of [[ ,;:]], or nothing at the
    edge of the string. *)
Definition delimiter (d : str) : Prop :=
  d = [] \/ exists c, d = [c] /\ is_delim c = true.

(** Every adjacent pair of characters satisfies [R]. *)
Fixpoint pairs (R : ascii -> ascii -> bool) (s : str) : bool :=
  match s with
  | a :: (b :: _) as s' => R a b && pairs R s'
  | _ => true
  end.

(** The only whitespace character is the space. *)
Definition plain_space (c : ascii) : bool :=
  negb (is_space c) || Ascii.eqb c space.

Definition no_double_space (a b : ascii) : bool :=
  negb (is_space a && is_space b).

Definition no_space_before_punct (a b : ascii) : bool :=
  negb (is_space a && is_punct b).

Definition no_punct_before_letter (a b : ascii) : bool :=
  negb (is_punct a && is_ascii_letter b).

Definition no_repeated_punct (a b : ascii) : bool :=
  negb (is_punct a && Ascii.eqb a b).

(** The text does not begin, resp. end, with whitespace. *)
Definition starts_clean (s : str) : bool :=
  match s with c :: _ => negb (is_space c) | [] => true end.

Definition ends_clean (s : str) : bool := starts_clean (rev s).

(** Single spaces only, none at either end. *)
Definition single_spaced (s : str) : Prop :=
  forallb plain_space s = true /\ pairs no_double_space s = true /\
  starts_clean s = true /\ ends_clean s = true.

(** The text does not begin with a character of class [q]. *)
Definition not_at (q : ascii -> bool) (s : str) : Prop :=
  match s with y :: _ => q y = false | [] => True end.

(** No whitespace at all. *)
Definition solid (a : str) : bool := forallb (fun c => negb (is_space c)) a.

(** The pair relation that always holds. *)
Definition any_pair (a b : ascii) : bool := true.

(** Single spaces only and none at the ends, no space before a
    punctuation mark, no letter right after one, no mark doubled. *)
Definition settled (s : str) : Prop :=
  single_spaced s /\
  pairs no_space_before_punct s = true /\
  pairs no_punct_before_letter s = true /\
  pairs no_repeated_punct s = true.

(** The example of the end-to-end scenario. *)
Definition caches_segments : list Segment :=
  [ mkSegment 0 5 (py "um so today");
    mkSegment 5 33 (py "we we talk about caches") ].

(** ** Views used by the further properties *)

(** [thinned out inp]: [out] is [inp] with some characters deleted and
    some spaces inserted; the characters kept stay in order. *)
Inductive thinned : str -> str -> Prop :=
| thin_nil : thinned [] []
| thin_drop : forall c out inp, thinned out inp -> thinned out (c :: inp)
| thin_keep : forall c out inp,
    thinned out inp -> thinned (c :: out) (c :: inp)
| thin_space : forall out inp, thinned out inp -> thinned (space :: out) inp.

(** Segments ordered by [end], ascending. *)
Definition ends_sorted (segments : list Segment) : Prop :=
  StronglySorted (fun a b => (seg_end a <= seg_end b)%Q) segments.

(** ** The rows of the table *)



(** ** Loading the segments *)

(** The value [json.load] returns.  A dict is given by its items, a key
    being looked up at its first item; a float is an exact rational, as
    the times of segments are. *)
#[warnings="-register-all"]
Inductive json : Type :=
| JNull
| JBool (b : bool)
| JInt (n : Z)
| JFloat (q : Q)
| JStr (s : str)
| JArr (items : list json)
| JObj (items : list (str * json)).

(** What loading can raise. *)
Inductive load_exn : Type :=
| ValueError (msg : str)
| FloatValueError (arg : str)   (* [float(arg)] of a string that is no number *)
| TypeError
| AttributeError.

Inductive loaded (A : Type) : Type :=
| Loaded (a : A)
| Fails (e : load_exn).

Arguments Loaded {A} a.
Arguments Fails {A} e.

Definition not_whisper_msg : str :=
  py "JSON does not look like Whisper output: missing 'segments' list.".

(** [d[key]] of a dict, when the key is in it. *)
Fixpoint dict_lookup (items : list (str * json)) (key : str) : option json :=
  match items with
  | [] => None
  | (k, v) :: items' => if str_eqb k key then Some v else dict_lookup items' key
  end.

(** [d.get(key, default)] *)
Definition dict_get (items : list (str * json)) (key : str) (default : json)
    : json :=
  match dict_lookup items key with
  | Some v => v
  | None => default
  end.

Fixpoint is_prefix (p s : str) : bool :=
  match p, s with
  | [], _ => true
  | x :: p', y :: s' => Ascii.eqb x y && is_prefix p' s'
  | _ :: _, [] => false
  end.

(** [p in s] of two strings. *)
Fixpoint is_infix (p s : str) : bool :=
  is_prefix p s ||
  match s with
  | [] => false
  | _ :: s' => is_infix p s'
  end.

(** [key in data] for the string [key]: a key of a dict, an element of a
    list, a part of a string; other values are not containers. *)
Definition py_in (key : str) (data : json) : loaded bool :=
  match data with
  | JObj items =>
      Loaded (match dict_lookup items key with Some _ => true | None => false end)
  | JArr items =>
      Loaded (existsb (fun v => match v with
                                | JStr s => str_eqb s key
                                | _ => false
                                end) items)
  | JStr s => Loaded (is_infix key s)
  | JNull | JBool _ | JInt _ | JFloat _ => Fails TypeError
  end.

Section Loading.

(** [float(s)] of a string, [None] when it raises, and [str(v)] of a value
    that is not a string. *)
Variable float_of_str : str -> option Q.
Variable str_of_value : json -> str.

(** [float(v)] *)
Definition py_float (v : json) : loaded Q :=
  match v with
  | JInt n => Loaded (inject_Z n)
  | JFloat q => Loaded q
  | JBool b => Loaded (if b then 1%Q else 0%Q)
  | JStr s =>
      match float_of_str s with
      | Some q => Loaded q
      | None => Fails (FloatValueError s)
      end
  | JNull | JArr _ | JObj _ => Fails TypeError
  end.

(** [str(v)] *)
Definition py_str (v : json) : str :=
  match v with
  | JStr s => s
  | _ => str_of_value v
  end.

(** One turn of the loop: the segment of an entry. *)
Definition load_segment (s : json) : loaded Segment :=
  match s with
  | JObj fields =>
      match py_float (dict_get fields (py "start") (JFloat 0)) with
      | Fails e => Fails e
      | Loaded t_start =>
          match py_float (dict_get fields (py "end") (JFloat 0)) with
          | Fails e => Fails e
          | Loaded t_end =>
              Loaded (mkSegment t_start t_end
                        (strip (py_str (dict_get fields (py "text")
                                                 (JStr [])))))
          end
      end
  | _ => Fails AttributeError
  end.

(** The loop over [data["segments"]]. *)
Fixpoint load_segments (entries : list json) : loaded (list Segment) :=
  match entries with
  | [] => Loaded []
  | s :: entries' =>
      match load_segment s with
      | Fails e => Fails e
      | Loaded seg =>
          match load_segments entries' with
          | Fails e => Fails e
          | Loaded segs => Loaded (seg :: segs)
          end
      end
  end.

(** [load_whisper_json] from the value read from the file on. *)
Definition load_whisper_json (data : json) : loaded (list Segment) :=
  match py_in (py "segments") data with
  | Fails e => Fails e
  | Loaded false => Fails (ValueError not_whisper_msg)
  | Loaded true =>
      match data with
      | JObj items =>
          match dict_lookup items (py "segments") with
          | Some (JArr entries) => load_segments entries
          | _ => Fails (ValueError not_whisper_msg)
          end
      | _ => Fails TypeError     (* [data["segments"]] of a list or string *)
      end
  end.

End Loading.


(** * Properties *)

(** ** Bucketizer: empty input and empty bin range *)

(** C9: an empty segment list gives an empty block list without any
    error, whatever the interval, and [main] turns the empty list into
    the [SystemExit] carrying the "no transcript text" message. *)
Theorem build_blocks_empty_input :
  forall interval : Z,
    build_blocks [] interval = Returns [] /\
    main_blocks [] interval = Raises (SystemExit no_text_msg).
Proof.
  intros interval. split; reflexivity.
Qed.

Lemma bin_count_nonpos :
  forall (t_end : Q) (bin0 k : Z),
    (0 < k)%Z -> (t_end <= inject_Z bin0)%Q ->
    (bin_count t_end bin0 k <= 0)%Z.
Proof.
  intros t_end bin0 k Hk Hle. unfold bin_count.
  rewrite <- (Qceiling_Z 0).
  apply Qceiling_resp_le.
  apply Qle_shift_div_r.
  - change 0%Q with (inject_Z 0). rewrite <- Zlt_Qlt. exact Hk.
  - rewrite Qmult_0_l. apply (Qplus_le_l _ _ (inject_Z bin0)).
    ring_simplify. exact Hle.
Qed.

(** C10: when no segment ends after the anchor (for instance every [end]
    is the default 0.0 and the starts are positive), the number of bins is
    zero or negative and [build_blocks] returns the empty list, whatever
    text the segments carry. *)
Theorem build_blocks_no_bins :
  forall (s0 : Segment) (rest : list Segment) (interval : Z),
    (0 < interval)%Z ->
    (max_end s0 rest <= inject_Z (anchor (seg_start s0) interval))%Q ->
    (bin_count (max_end s0 rest) (anchor (seg_start s0) interval) interval
       <= 0)%Z /\
    build_blocks (s0 :: rest) interval = Returns [].
Proof.
  intros s0 rest k Hk Hle.
  pose proof (bin_count_nonpos _ _ _ Hk Hle) as Hn.
  split; [exact Hn|].
  unfold build_blocks.
  destruct (Z.eqb_spec k 0) as [E|_]; [lia|].
  replace (Z.to_nat _) with 0 by lia.
  reflexivity.
Qed.

Lemma build_blocks_no_bins_witness :
  let s0 := mkSegment 5 0 (py "hello") in
  (0 < 30)%Z /\
  (max_end s0 [] <= inject_Z (anchor (seg_start s0) 30))%Q /\
  build_blocks [s0] 30 = Returns [].
Proof.
  intros s0.
  assert (H1 : (0 < 30)%Z) by reflexivity.
  assert (H2 : (max_end s0 [] <= inject_Z (anchor (seg_start s0) 30))%Q)
    by (vm_compute; discriminate).
  split; [exact H1|]. split; [exact H2|].
  exact (proj2 (build_blocks_no_bins s0 [] 30 H1 H2)).
Defined.

(** ** The end-to-end scenario *)

(** C1 (as stated): the scenario does not produce exactly one bucket. *)
Lemma caches_not_single_bucket :
  ~ (exists b : Block,
       build_blocks caches_segments 30 = Returns [b] /\
       blk_start b = 0%Z /\ blk_end b = 30%Z /\
       blk_text b = py "so today we talk about caches").
Proof.
  intros [b [H _]]. vm_compute in H. discriminate H.
Qed.

(** C1 (amended): with interval 30 the anchor is 0 and the last segment
    ends at 33, so there are two bins.  Bin [0,30) joins both segments and
    is cleaned to "so today we talk about caches"; bin [30,60) takes the
    second segment once more and is cleaned to "we talk about caches".
    Both texts are at most 40 characters long and get no period. *)
Theorem caches_scenario :
  anchor (seg_start (mkSegment 0 5 (py "um so today"))) 30 = 0%Z /\
  bin_texts caches_segments 30 0 0
    = [py "um so today"; py "we we talk about caches"] /\
  light_cleanup (py "um so today we we talk about caches")
    = py "so today we talk about caches" /\
  length (py "so today we talk about caches") = 29 /\
  build_blocks caches_segments 30
    = Returns [ mkBlock 0 30 (py "so today we talk about caches");
                mkBlock 30 60 (py "we talk about caches") ].
Proof.
  repeat split; vm_compute; reflexivity.
Qed.

(** ** Blocks and bin boundaries *)

Lemma block_of_shape :
  forall b_start b_end texts,
    block_of b_start b_end texts = [] \/
    exists cleaned, cleaned <> [] /\
      block_of b_start b_end texts = [mkBlock b_start b_end cleaned].
Proof.
  intros b_start b_end texts. unfold block_of.
  destruct texts as [|t texts]; [now left|].
  destruct (light_cleanup _) as [|c cleaned] eqn:E; [now left|].
  right. exists (c :: cleaned). split; [discriminate|reflexivity].
Qed.

Lemma bin_start_lt :
  forall bin0 k i j, (0 < k)%Z -> i < j ->
    (bin_start bin0 k i < bin_start bin0 k j)%Z.
Proof.
  intros bin0 k i j Hk Hij. unfold bin_start. nia.
Qed.

Lemma bin_start_mod :
  forall bin0 k i, (bin_start bin0 k i mod k = bin0 mod k)%Z.
Proof.
  intros bin0 k i. unfold bin_start. apply Z_mod_plus_full.
Qed.

Lemma starts_ascending :
  forall bin0 k blocks idxs,
    (0 < k)%Z ->
    Forall2 (block_at bin0 k) blocks idxs ->
    StronglySorted lt idxs ->
    StronglySorted Z.lt (map blk_start blocks).
Proof.
  intros bin0 k blocks idxs Hk H. induction H as [|b i bs js Hb Hrest IH];
    intros Hsort; simpl.
  - constructor.
  - inversion Hsort as [|? ? Hs Hall]; subst.
    constructor; [apply IH; assumption|].
    clear IH Hs Hsort. induction Hrest as [|b' i' bs' js' Hb' Hrest' IH'];
      simpl; constructor.
    + inversion Hall; subst. destruct Hb as [-> _], Hb' as [-> _].
      apply bin_start_lt; assumption.
    + apply IH'. inversion Hall; assumption.
Qed.

(** ** Timestamp formatting *)






(** ** The matcher on simple patterns *)

Lemma plus_loop_cls :
  forall ic p k fuel st,
    length (suf st) < fuel ->
    plus_loop (run ic (Cls p)) k fuel st
      = many1 p k (pre st) (suf st) (caps st).
Proof.
  intros ic p k fuel. induction fuel as [|fuel IH]; intros st Hlen; [lia|].
  destruct st as [pr sf cs]. cbn [suf pre caps] in *.
  destruct sf as [|x sf']; [reflexivity|].
  cbn [plus_loop run many1 suf pre caps]. destruct (p x); [|reflexivity].
  assert (Hlt : Nat.ltb (length sf') (length (x :: sf')) = true)
    by (apply Nat.ltb_lt; simpl; lia).
  rewrite Hlt. fold (plus_loop (run ic (Cls p)) k).
  rewrite IH by (simpl in Hlen |- *; lia). reflexivity.
Qed.

Lemma run_plus_cls :
  forall ic p k st,
    run ic (Plus (Cls p)) st k = many1 p k (pre st) (suf st) (caps st).
Proof.
  intros ic p k st.
  change (run ic (Plus (Cls p)) st k)
    with (plus_loop (run ic (Cls p)) k (S (length (suf st))) st).
  apply plus_loop_cls. lia.
Qed.

(** ** The terminal-period rule *)

Lemma spaces_then_eol :
  forall sf pr cs,
    sf <> [] -> forallb is_space sf = true ->
    many1 is_space at_eol pr sf cs <> None.
Proof.
  induction sf as [|x sf IH]; intros pr cs Hne Hall; [congruence|].
  simpl in Hall. apply andb_prop in Hall. destruct Hall as [Hx Hall].
  simpl. rewrite Hx. destruct sf as [|y sf].
  - simpl. discriminate.
  - specialize (IH (x :: pr) cs ltac:(discriminate) Hall).
    destruct (many1 is_space at_eol (x :: pr) (y :: sf) cs);
      [discriminate|congruence].
Qed.

Lemma at_eol_spaces :
  forall st, at_eol st <> None -> forallb is_space (suf st) = true.
Proof.
  intros [pr sf cs]. unfold at_eol. simpl.
  destruct sf as [|x [|y sf]]; try congruence; [reflexivity|].
  destruct (Ascii.eqb_spec x newline) as [->|]; [reflexivity|congruence].
Qed.

Lemma eol_after_spaces :
  forall sf pr cs,
    many1 is_space at_eol pr sf cs <> None -> forallb is_space sf = true.
Proof.
  induction sf as [|x sf IH]; intros pr cs H; [reflexivity|].
  simpl in *. destruct (is_space x); [|congruence]. simpl.
  destruct (many1 is_space at_eol (x :: pr) sf cs) eqn:E.
  - apply (IH (x :: pr) cs). congruence.
  - simpl in H. apply (at_eol_spaces _ H).
Qed.

Lemma match_terminal_cons :
  forall p c ws,
    match_at false re_terminal p (c :: ws)
      = if is_terminal c
        then orelse (many1 is_space at_eol (c :: p) ws [])
                    (at_eol (MState (c :: p) ws []))
        else None.
Proof.
  intros p c ws.
  change (match_at false re_terminal p (c :: ws))
    with (if is_terminal c
          then orelse (run false (Plus (Cls is_space))
                           (MState (c :: p) ws []) at_eol)
                      (at_eol (MState (c :: p) ws []))
          else None).
  rewrite run_plus_cls. reflexivity.
Qed.

Lemma match_terminal :
  forall p s,
    match_at false re_terminal p s <> None <->
    exists c ws, s = c :: ws /\ is_terminal c = true /\
                 forallb is_space ws = true.
Proof.
  intros p s. destruct s as [|c ws].
  - split; [intros H; exfalso; apply H; reflexivity|].
    intros (c & ws & H & _). discriminate.
  - rewrite match_terminal_cons. destruct (is_terminal c) eqn:Ec.
    + split.
      * intros H. exists c, ws. repeat split; [exact Ec|].
        destruct (many1 is_space at_eol (c :: p) ws []) eqn:E.
        -- apply (eol_after_spaces ws (c :: p) []). congruence.
        -- simpl in H. apply (at_eol_spaces _ H).
      * intros (c' & ws' & Heq & _ & Hall). injection Heq as <- <-.
        destruct ws as [|x ws].
        -- simpl. discriminate.
        -- pose proof (@spaces_then_eol (x :: ws) (c :: p) []
                         ltac:(discriminate) Hall) as Hs.
           destruct (many1 is_space at_eol (c :: p) (x :: ws) []);
             [discriminate|congruence].
    + split; [congruence|]. intros (c' & ws' & Heq & Hc & _).
      injection Heq as <- <-. congruence.
Qed.

Lemma search_terminal :
  forall s p,
    search_from false re_terminal p s <> None <->
    exists a c ws, s = a ++ c :: ws /\ is_terminal c = true /\
                   forallb is_space ws = true.
Proof.
  induction s as [|x s IH]; intros p.
  - simpl. destruct (match_at false re_terminal p []) eqn:E.
    + exfalso. assert (H : match_at false re_terminal p [] <> None)
        by congruence.
      apply match_terminal in H. destruct H as (c & ws & H & _).
      discriminate.
    + split; [congruence|]. intros (a & c & ws & H & _).
      destruct a; discriminate.
  - simpl. destruct (match_at false re_terminal p (x :: s)) eqn:E.
    + split; [|discriminate]. intros _.
      assert (H : match_at false re_terminal p (x :: s) <> None)
        by congruence.
      apply match_terminal in H. destruct H as (c & ws & H & Hc & Hw).
      exists [], c, ws. auto.
    + rewrite IH. split.
      * intros (a & c & ws & -> & Hc & Hw). exists (x :: a), c, ws. auto.
      * intros (a & c & ws & Heq & Hc & Hw). destruct a as [|y a].
        -- exfalso. simpl in Heq.
           assert (H : match_at false re_terminal p (x :: s) <> None).
           { apply match_terminal. exists c, ws. auto. }
           congruence.
        -- injection Heq as <- ->. exists a, c, ws. auto.
Qed.

Lemma has_terminal_iff :
  forall t, has_terminal t = true <-> ends_terminal t.
Proof.
  intros t. unfold has_terminal, ends_terminal, search.
  rewrite <- (search_terminal t []).
  destruct (search_from false re_terminal [] t); split; intros H.
  - discriminate.
  - reflexivity.
  - discriminate.
  - exfalso. apply H. reflexivity.
Qed.

Lemma has_terminal_false :
  forall t, has_terminal t = false -> ~ ends_terminal t.
Proof.
  intros t H Hend. apply has_terminal_iff in Hend. congruence.
Qed.

(** C7: after the rewrite rules, exactly one period is appended when the
    text is non-empty, does not end in [.], [!] or [?] followed by
    optional whitespace, and is longer than 40 characters; in every other
    case (in particular at length 40 or less) the text is returned as it
    is. *)
Theorem terminal_period_rule :
  forall text : str,
    let t := rewrite_rules text in
    (t <> [] /\ ~ ends_terminal t /\ 40 < length t ->
       light_cleanup text = t ++ [period]) /\
    (~ (t <> [] /\ ~ ends_terminal t /\ 40 < length t) ->
       light_cleanup text = t) /\
    (length t <= 40 -> light_cleanup text = t).
Proof.
  intros text t. unfold light_cleanup. fold t.
  assert (Hcases : (t <> [] /\ ~ ends_terminal t /\ 40 < length t ->
                      add_period t = t ++ [period]) /\
                   (~ (t <> [] /\ ~ ends_terminal t /\ 40 < length t) ->
                      add_period t = t)).
  { unfold add_period. destruct t as [|c t'] eqn:Et.
    - split; [intros (H & _); congruence|reflexivity].
    - rewrite <- Et. destruct (has_terminal t) eqn:Eh; simpl.
      + split; [|reflexivity]. intros (_ & Hno & _).
        exfalso. apply Hno, has_terminal_iff, Eh.
      + destruct (Nat.ltb_spec 40 (length t)) as [Hlen|Hlen].
        * split; [reflexivity|]. intros Hneg. exfalso. apply Hneg.
          repeat split; [rewrite Et; discriminate| |exact Hlen].
          apply has_terminal_false, Eh.
        * split; [|reflexivity]. intros (_ & _ & H). lia. }
  destruct Hcases as [Hadd Hkeep].
  repeat split; [exact Hadd|exact Hkeep|].
  intros Hlen. apply Hkeep. intros (_ & _ & H). lia.
Qed.

Lemma terminal_period_rule_witness :
  let text := py "the quick brown fox jumps over the lazy dog today" in
  (rewrite_rules text <> [] /\ ~ ends_terminal (rewrite_rules text) /\
   40 < length (rewrite_rules text)) /\
  light_cleanup text = rewrite_rules text ++ [period].
Proof.
  intros text.
  assert (H : rewrite_rules text <> [] /\
              ~ ends_terminal (rewrite_rules text) /\
              40 < length (rewrite_rules text)).
  { repeat split.
    - vm_compute. discriminate.
    - apply has_terminal_false. vm_compute. reflexivity.
    - apply Nat.ltb_lt. vm_compute. reflexivity. }
  split; [exact H|].
  exact (proj1 (terminal_period_rule text) H).
Defined.

(** ** The forward scan *)

Lemma Qlt_bool_iff : forall a b, Qlt_bool a b = true <-> (a < b)%Q.
Proof.
  intros a b. unfold Qlt_bool. rewrite negb_true_iff.
  split.
  - intros H. apply Qnot_le_lt. intros Hle.
    apply Qle_bool_iff in Hle. congruence.
  - intros H. destruct (Qle_bool b a) eqn:E; [|reflexivity].
    apply Qle_bool_iff in E. exfalso. apply (Qlt_not_le _ _ H E).
Qed.

Lemma bin_start_le :
  forall bin0 k i j, (0 < k)%Z -> i <= j ->
    (bin_start bin0 k i <= bin_start bin0 k j)%Z.
Proof.
  intros bin0 k i j Hk Hij. unfold bin_start. nia.
Qed.

Lemma sorted_nth :
  forall segments, starts_sorted segments ->
    forall i j si sj,
      i <= j -> nth_error segments i = Some si ->
      nth_error segments j = Some sj ->
      (seg_start si <= seg_start sj)%Q.
Proof.
  intros segments Hs. induction Hs as [|s0 rest Hs IH Hall];
    intros i j si sj Hij Hi Hj.
  - destruct i; discriminate.
  - destruct i as [|i], j as [|j]; simpl in Hi, Hj; try lia.
    + injection Hi as <-. injection Hj as <-. apply Qle_refl.
    + injection Hi as <-. rewrite Forall_forall in Hall.
      apply Hall. eapply nth_error_In, Hj.
    + apply (IH i j si sj); [lia|exact Hi|exact Hj].
Qed.

Section Scan.

Variable segments : list Segment.
Variables k bin0 : Z.

Lemma scan_S :
  forall n,
    scan segments k bin0 (S n)
      = bin_step segments k bin0 (scan segments k bin0 n) n.
Proof.
  intros n. unfold scan.
  rewrite seq_S, fold_left_app. reflexivity.
Qed.

Lemma scan_S_cursor :
  forall n,
    fst (scan segments k bin0 (S n)) = cursor segments k bin0 n.
Proof.
  intros n. rewrite scan_S. unfold cursor.
  destruct (scan segments k bin0 n) as [c blocks]. reflexivity.
Qed.

Lemma scan_S_blocks :
  forall n,
    snd (scan segments k bin0 (S n))
      = snd (scan segments k bin0 n)
        ++ block_of (bin_start bin0 k n) (bin_start bin0 k n + k)
                    (bin_texts segments k bin0 n).
Proof.
  intros n. rewrite scan_S. unfold bin_texts, cursor.
  destruct (scan segments k bin0 n) as [c blocks]. reflexivity.
Qed.

Lemma scan_blocks :
  forall n,
    snd (scan segments k bin0 n)
      = flat_map (fun i => block_of (bin_start bin0 k i)
                                    (bin_start bin0 k i + k)
                                    (bin_texts segments k bin0 i))
                 (seq 0 n).
Proof.
  intros n. induction n as [|n IH]; [reflexivity|].
  rewrite scan_S_blocks, seq_S, flat_map_app, IH. simpl.
  rewrite app_nil_r. reflexivity.
Qed.

Lemma advance_bounds :
  forall rest b c, c <= advance rest b c <= c + length rest.
Proof.
  induction rest as [|s rest IH]; intros b c; simpl; [lia|].
  destruct (Qle_bool (seg_end s) (inject_Z b)); [|lia].
  specialize (IH b (S c)). lia.
Qed.

Lemma advance_skipped :
  forall rest b c j s,
    c + j < advance rest b c -> nth_error rest j = Some s ->
    (seg_end s <= inject_Z b)%Q.
Proof.
  induction rest as [|s0 rest IH]; intros b c j s Hlt Hnth.
  - destruct j; discriminate.
  - simpl in Hlt. destruct (Qle_bool (seg_end s0) (inject_Z b)) eqn:E;
      [|lia].
    destruct j as [|j]; simpl in Hnth.
    + injection Hnth as <-. apply Qle_bool_iff, E.
    + apply (IH b (S c) j s); [lia|exact Hnth].
Qed.

Lemma advance_stop :
  forall rest b c s,
    nth_error rest (advance rest b c - c) = Some s ->
    (inject_Z b < seg_end s)%Q.
Proof.
  induction rest as [|s0 rest IH]; intros b c s Hnth.
  - simpl in Hnth. rewrite Nat.sub_diag in Hnth. discriminate.
  - simpl in Hnth. destruct (Qle_bool (seg_end s0) (inject_Z b)) eqn:E.
    + pose proof (advance_bounds rest b (S c)) as Hb.
      replace (advance rest b (S c) - c)
        with (S (advance rest b (S c) - S c)) in Hnth by lia.
      simpl in Hnth. apply (IH b (S c) s Hnth).
    + rewrite Nat.sub_diag in Hnth. injection Hnth as <-.
      apply Qnot_le_lt. intros Hle. apply Qle_bool_iff in Hle. congruence.
Qed.

Lemma nth_error_from :
  forall (A : Type) (l : list A) c j,
    nth_error (skipn c l) j = nth_error l (c + j).
Proof.
  intros A l c. revert l. induction c as [|c IH]; intros l j; [reflexivity|].
  destruct l as [|x l]; simpl; [destruct j; reflexivity|apply IH].
Qed.

Lemma cursor_0 :
  cursor segments k bin0 0 = advance segments (bin_start bin0 k 0) 0.
Proof. reflexivity. Qed.

Lemma cursor_S :
  forall i,
    cursor segments k bin0 (S i)
      = advance (skipn (cursor segments k bin0 i) segments)
                (bin_start bin0 k (S i)) (cursor segments k bin0 i).
Proof.
  intros i. unfold cursor at 1.
  rewrite scan_S_cursor. reflexivity.
Qed.

Lemma cursor_step : forall i,
    cursor segments k bin0 i <= cursor segments k bin0 (S i).
Proof.
  intros i. rewrite cursor_S. apply advance_bounds.
Qed.

Lemma cursor_monotone :
  forall i j,
    i <= j -> cursor segments k bin0 i <= cursor segments k bin0 j.
Proof.
  intros i j Hij. induction Hij as [|j Hij IH]; [lia|].
  pose proof (cursor_step j). lia.
Qed.

Lemma cursor_skipped :
  (0 < k)%Z ->
    forall i idx s,
      idx < cursor segments k bin0 i -> nth_error segments idx = Some s ->
      (seg_end s <= inject_Z (bin_start bin0 k i))%Q.
Proof.
  intros Hk. induction i as [|i IH]; intros idx s Hlt Hnth.
  - rewrite cursor_0 in Hlt.
    apply (advance_skipped segments (bin_start bin0 k 0) 0 idx s);
      [simpl; exact Hlt|exact Hnth].
  - destruct (Nat.lt_ge_cases idx (cursor segments k bin0 i)) as [Hold|Hnew].
    + eapply Qle_trans; [apply (IH idx s Hold Hnth)|].
      rewrite <- Zle_Qle. apply bin_start_le; [exact Hk|lia].
    + rewrite cursor_S in Hlt.
      apply (advance_skipped (skipn (cursor segments k bin0 i) segments)
               (bin_start bin0 k (S i)) (cursor segments k bin0 i)
               (idx - cursor segments k bin0 i) s).
      * replace (cursor segments k bin0 i + (idx - cursor segments k bin0 i))
          with idx by lia. exact Hlt.
      * rewrite nth_error_from.
        replace (cursor segments k bin0 i + (idx - cursor segments k bin0 i))
          with idx by lia. exact Hnth.
Qed.

Lemma cursor_stop :
  forall i s,
    nth_error segments (cursor segments k bin0 i) = Some s ->
    (inject_Z (bin_start bin0 k i) < seg_end s)%Q.
Proof.
  intros i s Hnth. unfold cursor in *.
  set (c := fst (scan segments k bin0 i)) in *.
  apply (advance_stop (skipn c segments) (bin_start bin0 k i) c).
  rewrite nth_error_from.
  pose proof (advance_bounds (skipn c segments) (bin_start bin0 k i) c).
  replace (c + (advance (skipn c segments) (bin_start bin0 k i) c - c))
    with (advance (skipn c segments) (bin_start bin0 k i) c) by lia.
  exact Hnth.
Qed.

Lemma reach_spec :
  forall rest b j,
    j < reach rest b <->
    (forall j', j' <= j ->
       exists s, nth_error rest j' = Some s /\
                 (seg_start s < inject_Z b)%Q).
Proof.
  induction rest as [|s0 rest IH]; intros b j; simpl.
  - split; [lia|]. intros H. destruct (H 0 ltac:(lia)) as (s & Hs & _).
    discriminate.
  - destruct (Qlt_bool (seg_start s0) (inject_Z b)) eqn:E.
    + split.
      * intros Hlt [|j'] Hle; simpl.
        -- exists s0. split; [reflexivity|apply Qlt_bool_iff, E].
        -- apply (proj1 (IH b (j - 1))); lia.
      * intros H. destruct j as [|j]; [lia|].
        apply -> Nat.succ_lt_mono. apply IH. intros j' Hle.
        apply (H (S j')). lia.
    + split; [lia|]. intros H. destruct (H 0 ltac:(lia)) as (s & Hs & Hlt).
      simpl in Hs. injection Hs as <-. apply Qlt_bool_iff in Hlt. congruence.
Qed.

Lemma visited_spec :
  forall i idx,
    visited segments k bin0 i idx = true <->
    cursor segments k bin0 i <= idx /\
    (forall j, cursor segments k bin0 i <= j <= idx ->
       exists s, nth_error segments j = Some s /\
         (seg_start s < inject_Z (bin_start bin0 k i + k))%Q).
Proof.
  intros i idx. unfold visited.
  set (c := cursor segments k bin0 i).
  rewrite andb_true_iff, Nat.leb_le, Nat.ltb_lt.
  split.
  - intros [Hle Hlt]. split; [exact Hle|]. intros j Hj.
    assert (Hr : idx - c < reach (skipn c segments) (bin_start bin0 k i + k))
      by lia.
    destruct (proj1 (reach_spec _ _ _) Hr (j - c) ltac:(lia)) as (s & Hs & Hlt').
    rewrite nth_error_from in Hs. replace (c + (j - c)) with j in Hs by lia.
    exists s. auto.
  - intros [Hle H]. split; [exact Hle|].
    assert (Hr : idx - c < reach (skipn c segments) (bin_start bin0 k i + k)).
    { apply reach_spec. intros j' Hj'.
      destruct (H (c + j') ltac:(lia)) as (s & Hs & Hlt).
      exists s. rewrite nth_error_from. auto. }
    lia.
Qed.

Lemma collect_reach :
  forall rest b t,
    In t (collect rest b) <->
    t <> [] /\ exists j s, j < reach rest b /\ nth_error rest j = Some s /\
                           seg_text s = t.
Proof.
  induction rest as [|s0 rest IH]; intros b t; simpl.
  - split; [intros []|]. intros (_ & j & s & Hlt & _). lia.
  - destruct (Qlt_bool (seg_start s0) (inject_Z b)) eqn:E.
    + assert (Hrest : In t (collect rest b) <->
                t <> [] /\ exists j s, S j < S (reach rest b) /\
                  nth_error (s0 :: rest) (S j) = Some s /\ seg_text s = t).
      { rewrite IH. simpl. split; intros (Hne & j & s & Hlt & Hs).
        - split; [exact Hne|]. exists j, s. split; [lia|exact Hs].
        - split; [exact Hne|]. exists j, s. split; [lia|exact Hs]. }
      destruct (seg_text s0) as [|c0 t0] eqn:Et.
      * rewrite Hrest. split.
        -- intros (Hne & j & s & H). split; [exact Hne|]. exists (S j), s.
           exact H.
        -- intros (Hne & [|j] & s & Hlt & Hs & Htext).
           ++ simpl in Hs. injection Hs as <-. congruence.
           ++ split; [exact Hne|]. exists j, s. auto.
      * simpl. rewrite Hrest. split.
        -- intros [<-|(Hne & j & s & H)].
           ++ split; [discriminate|]. exists 0, s0. simpl.
              repeat split; [lia|exact Et].
           ++ split; [exact Hne|]. exists (S j), s. exact H.
        -- intros (Hne & [|j] & s & Hlt & Hs & Htext).
           ++ simpl in Hs. injection Hs as <-. left. congruence.
           ++ right. split; [exact Hne|]. exists j, s. auto.
    + split; [intros []|]. intros (_ & j & s & Hlt & _). lia.
Qed.

Lemma bin_texts_visited :
  forall i t,
    In t (bin_texts segments k bin0 i) <->
    t <> [] /\
    exists idx s, visited segments k bin0 i idx = true /\
                  nth_error segments idx = Some s /\ seg_text s = t.
Proof.
  intros i t. unfold bin_texts. rewrite collect_reach.
  unfold visited. set (c := cursor segments k bin0 i).
  split; intros (Hne & j & s & H1 & H2 & H3); (split; [exact Hne|]).
  - exists (c + j), s. rewrite nth_error_from in H2.
    repeat split; [|exact H2|exact H3].
    apply andb_true_iff. rewrite Nat.leb_le, Nat.ltb_lt. lia.
  - apply andb_true_iff in H1. rewrite Nat.leb_le, Nat.ltb_lt in H1.
    exists (j - c), s. rewrite nth_error_from.
    replace (c + (j - c)) with j by lia.
    repeat split; [lia|exact H2|exact H3].
Qed.

Lemma visited_sorted :
  forall i idx s,
    starts_sorted segments ->
    cursor segments k bin0 i <= idx ->
    nth_error segments idx = Some s ->
    (seg_start s < inject_Z (bin_start bin0 k i + k))%Q ->
    visited segments k bin0 i idx = true.
Proof.
  intros i idx s Hsorted Hle Hnth Hlt.
  apply visited_spec. split; [exact Hle|]. intros j Hj.
  destruct (nth_error segments j) as [sj|] eqn:Ej.
  - exists sj. split; [reflexivity|].
    eapply Qle_lt_trans; [|exact Hlt].
    apply (sorted_nth segments Hsorted j idx sj s); [lia|exact Ej|exact Hnth].
  - exfalso. apply nth_error_None in Ej.
    assert (idx < length segments) by (apply nth_error_Some; congruence).
    lia.
Qed.

Lemma visited_overlap :
  forall i idx s,
    (0 < k)%Z -> starts_sorted segments ->
    nth_error segments idx = Some s ->
    (seg_start s < inject_Z (bin_start bin0 k i + k))%Q ->
    (inject_Z (bin_start bin0 k i) < seg_end s)%Q ->
    visited segments k bin0 i idx = true.
Proof.
  intros i idx s Hk Hsorted Hnth Hstart Hend.
  apply (visited_sorted i idx s); try assumption.
  destruct (Nat.le_gt_cases (cursor segments k bin0 i) idx) as [H|H];
    [exact H|].
  exfalso. pose proof (cursor_skipped Hk i idx s H Hnth).
  apply (Qlt_not_le _ _ Hend). assumption.
Qed.

Lemma visited_before_cursor :
  forall i j idx,
    idx < cursor segments k bin0 i -> i <= j ->
    visited segments k bin0 j idx = false.
Proof.
  intros i j idx Hlt Hij. unfold visited.
  pose proof (cursor_monotone i j Hij).
  apply andb_false_iff. left. apply Nat.leb_gt. lia.
Qed.

End Scan.

Lemma build_blocks_bins :
  forall s0 rest k, k <> 0%Z ->
    let segments := s0 :: rest in
    let bin0 := anchor (seg_start s0) k in
    build_blocks segments k
      = Returns
          (flat_map (fun i => block_of (bin_start bin0 k i)
                                       (bin_start bin0 k i + k)
                                       (bin_texts segments k bin0 i))
             (seq 0 (Z.to_nat (bin_count (max_end s0 rest) bin0 k)))).
Proof.
  intros s0 rest k Hk segments bin0. unfold build_blocks.
  destruct (Z.eqb_spec k 0) as [E|_]; [contradiction|].
  fold bin0. fold segments.
  rewrite <- scan_blocks. reflexivity.
Qed.

(** C4: the scan over the bins is forward-only.  The blocks are those of
    the bins [0 .. nbins-1] in ascending order; the cursor never moves
    back; a segment the cursor has passed ended at or before the start of
    the current bin and is not visited by this bin or any later one, and
    the cursor rests on a segment that ends after the bin start; the texts
    of a bin are the non-empty texts of the segments it visits; a visited
    segment lies at or after the cursor and starts before the bin end, and
    in a list ordered by start every such segment is visited; hence a
    segment that starts before the end of bin [i] and ends after the start
    of bin [j] is visited by every bin from [i] to [j]. *)
Theorem forward_scan :
  forall (s0 : Segment) (rest : list Segment) (k : Z),
    (0 < k)%Z ->
    let segments := s0 :: rest in
    let bin0 := anchor (seg_start s0) k in
    let nbins := Z.to_nat (bin_count (max_end s0 rest) bin0 k) in
    let b_start := bin_start bin0 k in
    let b_end := fun i => (bin_start bin0 k i + k)%Z in
    let cur := cursor segments k bin0 in
    let visits := visited segments k bin0 in
    build_blocks segments k
      = Returns (flat_map (fun i => block_of (b_start i) (b_end i)
                                      (bin_texts segments k bin0 i))
                          (seq 0 nbins)) /\
    (forall i j, i <= j -> cur i <= cur j) /\
    (forall i idx s,
       idx < cur i -> nth_error segments idx = Some s ->
       (seg_end s <= inject_Z (b_start i))%Q /\
       forall j, i <= j -> visits j idx = false) /\
    (forall i s,
       nth_error segments (cur i) = Some s ->
       (inject_Z (b_start i) < seg_end s)%Q) /\
    (forall i t,
       In t (bin_texts segments k bin0 i) <->
       t <> [] /\
       exists idx s, visits i idx = true /\
                     nth_error segments idx = Some s /\ seg_text s = t) /\
    (forall i idx,
       visits i idx = true ->
       cur i <= idx /\
       exists s, nth_error segments idx = Some s /\
                 (seg_start s < inject_Z (b_end i))%Q) /\
    (starts_sorted segments ->
     forall i idx s,
       cur i <= idx -> nth_error segments idx = Some s ->
       (seg_start s < inject_Z (b_end i))%Q ->
       visits i idx = true) /\
    (starts_sorted segments ->
     forall i j idx s,
       nth_error segments idx = Some s ->
       (seg_start s < inject_Z (b_end i))%Q ->
       (inject_Z (b_start j) < seg_end s)%Q ->
       forall m, i <= m <= j -> visits m idx = true).
Proof.
  intros s0 rest k Hk segments bin0 nbins b_start b_end cur visits.
  split; [apply build_blocks_bins; lia|].
  split; [apply cursor_monotone|].
  split.
  { intros i idx s Hlt Hnth. split.
    - apply (cursor_skipped segments k bin0 Hk i idx s Hlt Hnth).
    - intros j Hij. apply (visited_before_cursor segments k bin0 i j idx Hlt Hij). }
  split; [apply cursor_stop|].
  split; [apply bin_texts_visited|].
  split.
  { intros i idx Hv. apply visited_spec in Hv. destruct Hv as [Hle H].
    split; [exact Hle|]. apply (H idx). split; [exact Hle|lia]. }
  split.
  { intros Hsorted i idx s Hle Hnth Hlt.
    apply (visited_sorted segments k bin0 i idx s); assumption. }
  intros Hsorted i j idx s Hnth Hstart Hend m [Him Hmj].
  apply (visited_overlap segments k bin0 m idx s); try assumption.
  - eapply Qlt_le_trans; [exact Hstart|].
    rewrite <- Zle_Qle. unfold b_end.
    pose proof (bin_start_le bin0 k i m Hk Him). lia.
  - eapply Qle_lt_trans; [|exact Hend].
    rewrite <- Zle_Qle. apply bin_start_le; assumption.
Qed.

Lemma forward_scan_witness :
  (0 < 30)%Z /\
  starts_sorted caches_segments /\
  visited caches_segments 30 0 0 1 = true /\
  visited caches_segments 30 0 1 1 = true /\
  visited caches_segments 30 0 1 0 = false.
Proof.
  assert (Hk : (0 < 30)%Z) by reflexivity.
  assert (Hs : starts_sorted caches_segments).
  { repeat constructor. vm_compute. discriminate. }
  pose proof (forward_scan (mkSegment 0 5 (py "um so today"))
                [mkSegment 5 33 (py "we we talk about caches")] 30 Hk)
    as (_ & _ & Hskip & _ & _ & _ & _ & Hmulti).
  assert (H1 : nth_error caches_segments 1
               = Some (mkSegment 5 33 (py "we we talk about caches")))
    by reflexivity.
  assert (H0 : nth_error caches_segments 0
               = Some (mkSegment 0 5 (py "um so today")))
    by reflexivity.
  split; [exact Hk|]. split; [exact Hs|].
  split; [|split].
  - apply (Hmulti Hs 0 1 1 _ H1); [reflexivity|reflexivity|lia].
  - apply (Hmulti Hs 0 1 1 _ H1); [reflexivity|reflexivity|lia].
  - apply (proj2 (Hskip 1 0 _ ltac:(vm_compute; lia) H0) 1). lia.
Defined.

(** ** Bucket structure *)

Lemma bin_blocks_shape :
  forall segments k bin0 l,
    Forall2 (block_at bin0 k)
            (flat_map (bin_block segments k bin0) l)
            (filter (emits segments k bin0) l).
Proof.
  intros segments k bin0 l. induction l as [|i l IH]; [constructor|].
  cbn [flat_map filter]. unfold emits at 1.
  destruct (block_of_shape (bin_start bin0 k i) (bin_start bin0 k i + k)
              (bin_texts segments k bin0 i)) as [E|(cleaned & _ & E)];
    fold (bin_block segments k bin0 i) in E; rewrite E;
    [exact IH|].
  constructor; [split; reflexivity|exact IH].
Qed.

Lemma filter_seq_sorted :
  forall (f : nat -> bool) n a, StronglySorted lt (filter f (seq a n)).
Proof.
  intros f n. induction n as [|n IH]; intros a; [constructor|].
  simpl. destruct (f a); [|apply IH].
  constructor; [apply IH|].
  apply Forall_forall. intros i Hi. apply filter_In in Hi.
  destruct Hi as [Hi _]. apply in_seq in Hi. lia.
Qed.

(** C6: for a non-empty segment list and a positive interval [k], the
    emitted blocks correspond, in order, to the bins below the bin count
    that are not filtered out; the block of bin [i] starts at
    [anchor + i*k] and ends [k] later, so every start is congruent to the
    anchor modulo [k]; the bin indices are strictly increasing and the
    starts strictly ascending. *)
Theorem bucket_structure :
  forall (s0 : Segment) (rest : list Segment) (k : Z),
    (0 < k)%Z ->
    let segments := s0 :: rest in
    let bin0 := anchor (seg_start s0) k in
    let nbins := Z.to_nat (bin_count (max_end s0 rest) bin0 k) in
    bin0 = (Qfloor (seg_start s0 / inject_Z k) * k)%Z /\
    exists (blocks : list Block) (idxs : list nat),
      build_blocks segments k = Returns blocks /\
      Forall2 (fun b i =>
                 blk_start b = (bin0 + Z.of_nat i * k)%Z /\
                 blk_end b = (blk_start b + k)%Z) blocks idxs /\
      StronglySorted lt idxs /\
      (forall i, In i idxs <->
                 i < nbins /\ emits segments k bin0 i = true) /\
      Forall (fun b => (blk_start b mod k = bin0 mod k)%Z) blocks /\
      StronglySorted Z.lt (map blk_start blocks).
Proof.
  intros s0 rest k Hk segments bin0 nbins. split; [reflexivity|].
  exists (flat_map (bin_block segments k bin0) (seq 0 nbins)),
         (filter (emits segments k bin0) (seq 0 nbins)).
  pose proof (bin_blocks_shape segments k bin0 (seq 0 nbins)) as Hshape.
  pose proof (filter_seq_sorted (emits segments k bin0) nbins 0) as Hsort.
  split; [apply build_blocks_bins; lia|].
  split; [exact Hshape|]. split; [exact Hsort|]. split; [|split].
  - intros i. rewrite filter_In, in_seq. split; intros [H1 H2];
      (split; [lia|exact H2]).
  - clear Hsort. induction Hshape as [|b i bs js [Hb _] _ IH];
      constructor; [|exact IH].
    rewrite Hb. apply bin_start_mod.
  - eapply starts_ascending; eassumption.
Qed.

Lemma bucket_structure_witness :
  (0 < 30)%Z /\
  exists blocks idxs,
    build_blocks caches_segments 30 = Returns blocks /\
    Forall2 (fun b i =>
               blk_start b = (0 + Z.of_nat i * 30)%Z /\
               blk_end b = (blk_start b + 30)%Z) blocks idxs /\
    StronglySorted lt idxs.
Proof.
  assert (H : (0 < 30)%Z) by reflexivity.
  split; [exact H|].
  destruct (bucket_structure (mkSegment 0 5 (py "um so today"))
              [mkSegment 5 33 (py "we we talk about caches")] 30 H)
    as (_ & blocks & idxs & Hb & Hshape & Hsort & _).
  exists blocks, idxs. repeat split; assumption.
Defined.

(** ** Which bin receives a segment *)



Lemma inject_Z_pos : forall k, (0 < k)%Z -> (0 < inject_Z k)%Q.
Proof.
  intros k Hk. change 0%Q with (inject_Z 0). rewrite <- Zlt_Qlt. exact Hk.
Qed.










(** ** Soundness of the matcher *)

Lemma orelse_some :
  forall (A : Type) (a b : option A) (x : A),
    orelse a b = Some x -> a = Some x \/ (a = None /\ b = Some x).
Proof.
  intros A [a|] b x H; simpl in H; [left; exact H|right; auto].
Qed.

Lemma plus_loop_sound :
  forall ic r,
    (forall st k res, run ic r st k = Some res ->
       exists st', matches ic r st st' /\ k st' = Some res) ->
    forall k fuel st res,
      plus_loop (run ic r) k fuel st = Some res ->
      exists st', matches ic (Plus r) st st' /\ k st' = Some res.
Proof.
  intros ic r IHr k fuel. induction fuel as [|fuel IH]; intros st res H;
    [discriminate|].
  cbn [plus_loop] in H. apply IHr in H. destruct H as (st1 & Hm & H).
  apply orelse_some in H. destruct H as [H|[_ H]].
  - destruct (Nat.ltb (length (suf st1)) (length (suf st))); [|discriminate].
    apply IH in H. destruct H as (st2 & Hm2 & Hk).
    exists st2. split; [eapply M_PlusS; eassumption|exact Hk].
  - exists st1. split; [apply M_Plus1, Hm|exact H].
Qed.

Theorem run_sound :
  forall ic r st k res,
    run ic r st k = Some res ->
    exists st', matches ic r st st' /\ k st' = Some res.
Proof.
  intros ic r. induction r as [|c|p| | | |r1 IH1 r2 IH2|r1 IH1 r2 IH2
                               |r1 IH1|n r1 IH1|n]; intros st k res H.
  - exists st. split; [constructor|exact H].
  - destruct st as [pr [|x sf] cs]; cbn [run suf pre caps] in H;
      [discriminate|].
    destruct (eq_char ic c x) eqn:E; [|discriminate].
    eexists. split; [apply M_Chr, E|exact H].
  - destruct st as [pr [|x sf] cs]; cbn [run suf pre caps] in H;
      [discriminate|].
    destruct (p x) eqn:E; [|discriminate].
    eexists. split; [apply M_Cls, E|exact H].
  - cbn [run] in H. destruct (pre st) eqn:E; [|discriminate].
    exists st. split; [apply M_Bol, E|exact H].
  - cbn [run] in H. destruct (suf st) as [|x [|y sf]] eqn:E;
      try discriminate.
    + exists st. split; [apply M_Eol; left; exact E|exact H].
    + destruct (Ascii.eqb_spec x newline) as [->|]; [|discriminate].
      exists st. split; [apply M_Eol; right; exact E|exact H].
  - cbn [run] in H.
    destruct (xorb (word_at (hd_error (pre st)))
                   (word_at (hd_error (suf st)))) eqn:E; [|discriminate].
    exists st. split; [apply M_WordB, E|exact H].
  - cbn [run] in H. apply IH1 in H. destruct H as (st1 & Hm1 & H).
    apply IH2 in H. destruct H as (st2 & Hm2 & H).
    exists st2. split; [eapply M_Seq; eassumption|exact H].
  - cbn [run] in H. apply orelse_some in H. destruct H as [H|[_ H]].
    + apply IH1 in H. destruct H as (st1 & Hm & H).
      exists st1. split; [apply M_AltL, Hm|exact H].
    + apply IH2 in H. destruct H as (st1 & Hm & H).
      exists st1. split; [apply M_AltR, Hm|exact H].
  - change (run ic (Plus r1) st k)
      with (plus_loop (run ic r1) k (S (length (suf st))) st) in H.
    eapply plus_loop_sound; eassumption.
  - cbn [run] in H. apply IH1 in H. destruct H as (st1 & Hm & H).
    eexists. split; [apply M_Grp, Hm|exact H].
  - cbn [run] in H. destruct (get_cap n (caps st)) as [w|] eqn:Ec;
      [|discriminate].
    destruct (eat ic w (pre st) (suf st)) as [[p' s']|] eqn:Ee;
      [|discriminate].
    eexists. split; [eapply M_Ref; eassumption|exact H].
Qed.

Lemma spans_refl : forall st, spans st st [].
Proof. intros st. split; reflexivity. Qed.

Lemma spans_trans :
  forall st st1 st2 w1 w2,
    spans st st1 w1 -> spans st1 st2 w2 -> spans st st2 (w1 ++ w2).
Proof.
  intros st st1 st2 w1 w2 [Hp1 Hs1] [Hp2 Hs2]. split.
  - rewrite Hp2, Hp1, rev_app_distr, app_assoc. reflexivity.
  - rewrite Hs1, Hs2, app_assoc. reflexivity.
Qed.

Lemma eat_spans :
  forall ic w p s p' s',
    eat ic w p s = Some (p', s') ->
    exists v, length v = length w /\ p' = rev v ++ p /\ s = v ++ s'.
Proof.
  intros ic w. induction w as [|c w IH]; intros p s p' s' H; simpl in H.
  - injection H as <- <-. exists []. auto.
  - destruct s as [|x s]; [discriminate|].
    destruct (eq_char ic c x); [|discriminate].
    apply IH in H. destruct H as (v & Hlen & Hp & Hs).
    exists (x :: v). simpl. rewrite Hlen, Hp, Hs, <- app_assoc. auto.
Qed.

Lemma matches_spans :
  forall ic r st st', matches ic r st st' -> exists w, spans st st' w.
Proof.
  intros ic r st st' H.
  induction H as [st|c x pr sf cs _|p x pr sf cs _|st _|st _|st _
                  |r1 r2 st st1 st2 _ [w1 H1] _ [w2 H2]
                  |r1 r2 st st' _ IH|r1 r2 st st' _ IH
                  |r st st' _ IH
                  |r st st1 st2 _ [w1 H1] _ [w2 H2]
                  |n r st st' _ [w Hw]
                  |n st w p' s' _ He].
  - exists []. apply spans_refl.
  - exists [x]. split; reflexivity.
  - exists [x]. split; reflexivity.
  - exists []. apply spans_refl.
  - exists []. apply spans_refl.
  - exists []. apply spans_refl.
  - exists (w1 ++ w2). eapply spans_trans; eassumption.
  - exact IH.
  - exact IH.
  - exact IH.
  - exists (w1 ++ w2). eapply spans_trans; eassumption.
  - exists w. exact Hw.
  - apply eat_spans in He. destruct He as (v & _ & Hp & Hs).
    exists v. split; assumption.
Qed.

Lemma spans_consumed :
  forall st st' w, spans st st' w -> consumed st st' = w.
Proof.
  intros st st' w [Hp _]. unfold consumed. rewrite Hp, length_app, length_rev.
  replace (length w + length (pre st) - length (pre st)) with (length (rev w))
    by (rewrite length_rev; lia).
  rewrite firstn_app, Nat.sub_diag, firstn_all. simpl.
  rewrite app_nil_r. apply rev_involutive.
Qed.

Lemma spans_unique :
  forall st st' w1 w2, spans st st' w1 -> spans st st' w2 -> w1 = w2.
Proof.
  intros st st' w1 w2 H1 H2.
  rewrite <- (spans_consumed st st' w1 H1). apply spans_consumed, H2.
Qed.

Lemma matches_group_free :
  forall ic r st st',
    matches ic r st st' -> group_free r = true -> caps st' = caps st.
Proof.
  intros ic r st st' H. induction H; simpl; intros Hg;
    try reflexivity; try discriminate;
    try (apply andb_prop in Hg; destruct Hg as [Hg1 Hg2]); auto.
  - rewrite IHmatches2, IHmatches1; auto.
  - rewrite IHmatches2, IHmatches1; auto.
Qed.

Lemma matches_min_len :
  forall ic r st st' w,
    matches ic r st st' -> spans st st' w -> min_len r <= length w.
Proof.
  intros ic r st st' w H. revert w.
  induction H as [st|c x pr sf cs _|p x pr sf cs _|st _|st _|st _
                  |r1 r2 st st1 st2 H1 IH1 H2 IH2
                  |r1 r2 st st' _ IH|r1 r2 st st' _ IH
                  |r st st' _ IH
                  |r st st1 st2 H1 IH1 H2 IH2
                  |n r st st' H IH
                  |n st w0 p' s' _ He]; intros w Hw; simpl; try lia.
  - rewrite (spans_unique _ _ _ [x] Hw); [simpl; lia|split; reflexivity].
  - rewrite (spans_unique _ _ _ [x] Hw); [simpl; lia|split; reflexivity].
  - destruct (matches_spans _ _ _ _ H1) as [w1 Hw1].
    destruct (matches_spans _ _ _ _ H2) as [w2 Hw2].
    rewrite (spans_unique _ _ _ _ Hw (spans_trans _ _ _ _ _ Hw1 Hw2)).
    rewrite length_app. specialize (IH1 _ Hw1). specialize (IH2 _ Hw2). lia.
  - specialize (IH _ Hw). lia.
  - specialize (IH _ Hw). lia.
  - apply IH, Hw.
  - destruct (matches_spans _ _ _ _ H1) as [w1 Hw1].
    destruct (matches_spans _ _ _ _ H2) as [w2 Hw2].
    rewrite (spans_unique _ _ _ _ Hw (spans_trans _ _ _ _ _ Hw1 Hw2)).
    rewrite length_app. specialize (IH1 _ Hw1). lia.
  - apply IH. destruct Hw as [Hp Hs]. split; assumption.
Qed.

(** ** Substitution *)

Lemma sub_go_skip :
  forall ic r tpl w p s,
    sub_go ic r tpl (length w) p (w ++ s) = sub_go ic r tpl 0 (rev w ++ p) s.
Proof.
  intros ic r tpl w. induction w as [|c w IH]; intros p s.
  - simpl. destruct s; reflexivity.
  - simpl. rewrite IH, <- app_assoc. reflexivity.
Qed.

Lemma sub_go_match :
  forall ic r tpl p s st w,
    match_at ic r p s = Some st -> s = w ++ suf st -> w <> [] ->
    sub_go ic r tpl 0 p s
      = expand tpl st ++ sub_go ic r tpl 0 (rev w ++ p) (suf st).
Proof.
  intros ic r tpl p s st w Hm Hs Hw.
  destruct w as [|c w]; [congruence|].
  destruct s as [|c' s']; [discriminate|].
  simpl in Hs. injection Hs as -> ->.
  cbn [sub_go]. rewrite Hm. f_equal.
  replace (length (c :: w ++ suf st) - length (suf st)) with (S (length w))
    by (cbn [length]; rewrite length_app; lia).
  rewrite sub_go_skip. simpl. rewrite <- app_assoc. reflexivity.
Qed.

Lemma sub_go_no_match :
  forall ic r tpl p c s,
    match_at ic r p (c :: s) = None ->
    sub_go ic r tpl 0 p (c :: s) = c :: sub_go ic r tpl 0 (c :: p) s.
Proof.
  intros ic r tpl p c s Hm. cbn [sub_go]. rewrite Hm. reflexivity.
Qed.

Lemma search_from_none :
  forall ic r s p,
    search_from ic r p s = None ->
    match_at ic r p s = None /\
    match s with
    | [] => True
    | c :: s' => search_from ic r (c :: p) s' = None
    end.
Proof.
  intros ic r s p H. destruct s as [|c s']; simpl in H;
    destruct (match_at ic r p _); try discriminate; auto.
Qed.

(** Where the pattern does not occur, [re.sub] returns the text as it is. *)
Lemma sub_go_identity :
  forall ic r tpl s p,
    search_from ic r p s = None -> sub_go ic r tpl 0 p s = s.
Proof.
  intros ic r tpl s. induction s as [|c s IH]; intros p H;
    apply search_from_none in H; destruct H as [Hm Hrest].
  - cbn [sub_go]. rewrite Hm. reflexivity.
  - rewrite sub_go_no_match by exact Hm. f_equal. apply IH, Hrest.
Qed.

Lemma sub_identity :
  forall ic r tpl s, search ic r s = None -> sub ic r tpl s = s.
Proof.
  intros ic r tpl s H. apply sub_go_identity, H.
Qed.

(** ** Inversion of the declarative reading *)

Lemma matches_seq_inv :
  forall ic r1 r2 st st',
    matches ic (Seq r1 r2) st st' ->
    exists st1, matches ic r1 st st1 /\ matches ic r2 st1 st'.
Proof.
  intros ic r1 r2 st st' H. inversion H; subst. eauto.
Qed.

Lemma matches_alt_inv :
  forall ic r1 r2 st st',
    matches ic (Alt r1 r2) st st' ->
    matches ic r1 st st' \/ matches ic r2 st st'.
Proof.
  intros ic r1 r2 st st' H. inversion H; subst; auto.
Qed.

Lemma matches_grp_inv :
  forall ic n r st st',
    matches ic (Grp n r) st st' ->
    exists st1, matches ic r st st1 /\
                st' = set_cap n (consumed st st1) st1.
Proof.
  intros ic n r st st' H. inversion H; subst. eauto.
Qed.

Lemma matches_cls_inv :
  forall ic p st st',
    matches ic (Cls p) st st' ->
    exists x sf, suf st = x :: sf /\ p x = true /\
                 st' = MState (x :: pre st) sf (caps st).
Proof.
  intros ic p st st' H. inversion H; subst. simpl. eauto.
Qed.

Lemma matches_chr_inv :
  forall ic c st st',
    matches ic (Chr c) st st' ->
    exists x sf, suf st = x :: sf /\ eq_char ic c x = true /\
                 st' = MState (x :: pre st) sf (caps st).
Proof.
  intros ic c st st' H. inversion H; subst. simpl. eauto.
Qed.

Lemma matches_bol_inv :
  forall ic st st', matches ic Bol st st' -> st' = st /\ pre st = [].
Proof.
  intros ic st st' H. inversion H; subst. auto.
Qed.

Lemma matches_eol_inv :
  forall ic st st',
    matches ic Eol st st' ->
    st' = st /\ (suf st = [] \/ suf st = [newline]).
Proof.
  intros ic st st' H. inversion H; subst. auto.
Qed.

Lemma matches_wordb_inv :
  forall ic st st',
    matches ic WordB st st' ->
    st' = st /\
    xorb (word_at (hd_error (pre st))) (word_at (hd_error (suf st))) = true.
Proof.
  intros ic st st' H. inversion H; subst. auto.
Qed.

Lemma match_at_sound :
  forall ic r p s st,
    match_at ic r p s = Some st -> matches ic r (MState p s []) st.
Proof.
  intros ic r p s st H. apply run_sound in H.
  destruct H as (st' & Hm & Heq). injection Heq as <-. exact Hm.
Qed.

(** ** Filler removal *)

Lemma filler_match_shape :
  forall p s st,
    match_at true re_filler p s = Some st ->
    exists l w r,
      s = l ++ w ++ r ++ suf st /\
      delimiter l /\ delimiter r /\ (l = [] -> p = []) /\
      (r = [] -> suf st = [] \/ suf st = [newline]) /\
      2 <= length w /\
      (exists st1 st2, matches true FILLER_RE st1 st2 /\ spans st1 st2 w) /\
      expand [TGrp 1; TGrp 3] st = l ++ r.
Proof.
  intros p s st Hm. apply match_at_sound in Hm.
  unfold re_filler, seqs in Hm.
  apply matches_seq_inv in Hm. destruct Hm as (st1 & H1 & Hm).
  apply matches_seq_inv in Hm. destruct Hm as (st2 & H2 & H3).
  apply matches_grp_inv in H1. destruct H1 as (sa & Ha & ->).
  apply matches_grp_inv in H2. destruct H2 as (sb & Hb & ->).
  apply matches_grp_inv in H3. destruct H3 as (sc & Hc & ->).
  destruct (matches_spans _ _ _ _ Ha) as [l Hl].
  destruct (matches_spans _ _ _ _ Hb) as [w Hw].
  destruct (matches_spans _ _ _ _ Hc) as [r Hr].
  pose proof (matches_min_len _ _ _ _ _ Hb Hw) as Hlen.
  pose proof (matches_group_free _ _ _ _ Hb eq_refl) as Hcaps.
  exists l, w, r.
  rewrite (spans_consumed _ _ _ Hl) in *.
  rewrite (spans_consumed _ _ _ Hw) in *.
  rewrite (spans_consumed _ _ _ Hr) in *.
  assert (Hw' : spans sa sb w) by (destruct Hw as [? ?]; split; assumption).
  assert (Hr' : spans sb sc r) by (destruct Hr as [? ?]; split; assumption).
  assert (Hdl : delimiter l /\ (l = [] -> p = [])).
  { apply matches_alt_inv in Ha. destruct Ha as [Ha|Ha].
    - apply matches_bol_inv in Ha. destruct Ha as [-> Hp].
      assert (l = []) as -> by (apply (spans_unique _ _ _ _ Hl), spans_refl).
      split; [left; reflexivity|intros _; exact Hp].
    - apply matches_cls_inv in Ha. destruct Ha as (x & sf & Hs & Hx & ->).
      simpl in Hs. subst s.
      assert (l = [x]) as ->
        by (apply (spans_unique _ _ _ _ Hl); split; reflexivity).
      split; [right; eauto|discriminate]. }
  assert (Hdr : delimiter r /\ (r = [] -> suf sc = [] \/ suf sc = [newline])).
  { apply matches_alt_inv in Hc. destruct Hc as [Hc|Hc].
    - apply matches_cls_inv in Hc. destruct Hc as (x & sf & Hs & Hx & ->).
      assert (r = [x]) as ->.
      { apply (spans_unique _ _ _ _ Hr). split; [reflexivity|exact Hs]. }
      split; [right; eauto|discriminate].
    - apply matches_eol_inv in Hc. destruct Hc as [-> He].
      assert (r = []) as -> by (apply (spans_unique _ _ _ _ Hr), spans_refl).
      split; [left; reflexivity|intros _; exact He]. }
  destruct Hl as [_ Hl], Hw' as [_ Hw2], Hr' as [_ Hr2].
  simpl in Hl.
  split; [rewrite Hl, Hw2, Hr2; reflexivity|].
  split; [apply Hdl|]. split; [apply Hdr|]. split; [apply Hdl|].
  split; [apply Hdr|]. split; [exact Hlen|].
  split; [exists (set_cap 1 l sa), sb; split; [exact Hb|exact Hw]|].
  unfold expand. simpl.
  rewrite (matches_group_free _ _ _ _ Hc eq_refl). simpl.
  rewrite Hcaps. simpl. rewrite app_nil_r. reflexivity.
Qed.

(** C3 (as stated): a filler between a comma and a semicolon leaves both
    marks behind, in the removal step and in the final text. *)
Lemma filler_mixed_delimiters_survive :
  remove_fillers (py ",um;") = py ",;" /\
  light_cleanup (py "a,um;b") = py "a,; b".
Proof.
  split; vm_compute; reflexivity.
Qed.

(** C3 (amended): every match the removal step replaces consists of a left
    delimiter [l], a filler [w] and a right delimiter [r], each delimiter
    being one character of [[ ,;:]] or empty at an edge of the string, and
    the replacement is [l] followed by [r]: only the filler is deleted and
    both delimiters are kept as they are.  A doubled space is merged later
    by the whitespace rule and a doubled identical mark by the
    double-punctuation rule, but a mixed pair such as [,;] stays. *)
Theorem filler_removal_keeps_delimiters :
  (forall (p s : str) (st : mstate),
     match_at true re_filler p s = Some st ->
     exists l w r : str,
       s = l ++ w ++ r ++ suf st /\
       delimiter l /\ delimiter r /\ 2 <= length w /\
       (exists st1 st2, matches true FILLER_RE st1 st2 /\ spans st1 st2 w) /\
       sub_go true re_filler [TGrp 1; TGrp 3] 0 p s
         = l ++ r ++ sub_go true re_filler [TGrp 1; TGrp 3] 0
                       (rev (l ++ w ++ r) ++ p) (suf st)) /\
  remove_fillers (py ",um,") = py ",," /\
  remove_fillers (py " um ") = py "  " /\
  remove_fillers (py ",um;") = py ",;" /\
  remove_fillers (py "Umm, so") = py ", so" /\
  light_cleanup (py "a,um,b") = py "a, b" /\
  light_cleanup (py "a um b") = py "a b" /\
  light_cleanup (py "a,um;b") = py "a,; b".
Proof.
  split; [|repeat split; vm_compute; reflexivity].
  intros p s st Hm.
  destruct (filler_match_shape p s st Hm)
    as (l & w & r & Hs & Hl & Hr & _ & _ & Hlen & Hfill & Hexp).
  exists l, w, r. repeat split; try assumption.
  rewrite (sub_go_match true re_filler [TGrp 1; TGrp 3] p s st (l ++ w ++ r)).
  - rewrite Hexp, <- app_assoc. reflexivity.
  - exact Hm.
  - rewrite Hs, <- !app_assoc. reflexivity.
  - intros E. apply (f_equal (@length ascii)) in E.
    rewrite !length_app in E. simpl in E. lia.
Qed.

Lemma filler_removal_keeps_delimiters_witness :
  exists st l w r,
    match_at true re_filler [] (py ",um;") = Some st /\
    py ",um;" = l ++ w ++ r ++ suf st /\
    delimiter l /\ delimiter r /\ 2 <= length w.
Proof.
  assert (H : match_at true re_filler [] (py ",um;")
              = Some (MState (py ";mu,") []
                        [(3, py ";"); (2, py "um"); (1, py ",")]))
    by (vm_compute; reflexivity).
  destruct (proj1 filler_removal_keeps_delimiters _ _ _ H)
    as (l & w & r & Hs & Hl & Hr & Hlen & _).
  eexists. exists l, w, r. split; [exact H|]. repeat split; assumption.
Defined.

(** ** Idempotence *)

Lemma has_terminal_app_period :
  forall t, has_terminal (t ++ [period]) = true.
Proof.
  intros t. apply has_terminal_iff. exists t, period, []. auto.
Qed.

Lemma add_period_terminal :
  forall t, has_terminal t = true -> add_period t = t.
Proof.
  intros t H. unfold add_period. destruct t; [reflexivity|].
  rewrite H. reflexivity.
Qed.

Lemma add_period_cases :
  forall t, add_period t = t \/ add_period t = t ++ [period].
Proof.
  intros t. unfold add_period. destruct t as [|c t]; [left; reflexivity|].
  destruct (negb (has_terminal (c :: t))); [|left; reflexivity].
  destruct (Nat.ltb 40 (length (c :: t))); [right|left]; reflexivity.
Qed.

(** The final [if] finds nothing to do on its own result. *)
Lemma add_period_idempotent :
  forall t, add_period (add_period t) = add_period t.
Proof.
  intros t. destruct (add_period_cases t) as [H|H]; rewrite H.
  - exact H.
  - apply add_period_terminal, has_terminal_app_period.
Qed.

(** ** Shape of cleaned text *)

(** The character classes are disjoint where the rules need it; each fact
    is checked on all 256 characters. *)
Ltac check_all_chars :=
  intros [[] [] [] [] [] [] [] []]; vm_compute; intros H;
  first [reflexivity | discriminate H].

Lemma word_not_space : forall c, is_word c = true -> is_space c = false.
Proof. check_all_chars. Qed.

Lemma punct_not_space : forall c, is_punct c = true -> is_space c = false.
Proof. check_all_chars. Qed.

Lemma letter_not_space :
  forall c, is_ascii_letter c = true -> is_space c = false.
Proof. check_all_chars. Qed.

Lemma letter_not_punct :
  forall c, is_ascii_letter c = true -> is_punct c = false.
Proof. check_all_chars. Qed.

Lemma pairs_cons :
  forall R a b s, pairs R (a :: b :: s) = R a b && pairs R (b :: s).
Proof. reflexivity. Qed.

Lemma pairs_app_l : forall R a b, pairs R (a ++ b) = true -> pairs R a = true.
Proof.
  intros R a. induction a as [|x a IH]; intros b H; [reflexivity|].
  destruct a as [|y a]; [reflexivity|].
  simpl app in H. rewrite pairs_cons in *. apply andb_prop in H.
  destruct H as [H1 H2]. rewrite H1. simpl. apply (IH b). exact H2.
Qed.

Lemma pairs_app_r : forall R a b, pairs R (a ++ b) = true -> pairs R b = true.
Proof.
  intros R a. induction a as [|x a IH]; intros b H; [exact H|].
  apply IH. destruct a as [|y a].
  - simpl in *. destruct b; [reflexivity|].
    apply andb_prop in H. apply H.
  - simpl app in H. rewrite pairs_cons in H. apply andb_prop in H. apply H.
Qed.

Lemma pairs_mid :
  forall R a x y b, pairs R (a ++ x :: y :: b) = true -> R x y = true.
Proof.
  intros R a x y b H. apply pairs_app_r in H. rewrite pairs_cons in H.
  apply andb_prop in H. apply H.
Qed.

Lemma pairs_tl :
  forall R a s, pairs R (a :: s) = true -> pairs R s = true.
Proof.
  intros R a s H. apply (pairs_app_r R [a] s H).
Qed.

(** ** Induction along a substitution *)

Lemma match_at_consumes :
  forall ic r p s st,
    match_at ic r p s = Some st ->
    exists m, s = m ++ suf st /\ min_len r <= length m.
Proof.
  intros ic r p s st H. apply match_at_sound in H.
  destruct (matches_spans _ _ _ _ H) as [m Hm].
  exists m. split; [apply Hm|].
  apply (matches_min_len _ _ _ _ _ H Hm).
Qed.

Lemma search_from_all_none :
  forall ic r s p,
    (forall a b, s = a ++ b -> match_at ic r (rev a ++ p) b = None) ->
    search_from ic r p s = None.
Proof.
  intros ic r s. induction s as [|c s IH]; intros p H.
  - pose proof (H [] [] eq_refl) as H0. simpl in H0.
    simpl. rewrite H0. reflexivity.
  - pose proof (H [] (c :: s) eq_refl) as H0. simpl in H0.
    simpl. rewrite H0. apply IH.
    intros a b Hab. specialize (H (c :: a) b). simpl in H.
    rewrite <- app_assoc in H. apply H. rewrite Hab. reflexivity.
Qed.

Lemma hd_error_nil : forall (s : str), hd_error s = None -> s = [].
Proof. intros [|c s] H; [reflexivity|discriminate]. Qed.

Lemma pairs_join :
  forall R a y b,
    pairs R (a ++ [y]) = true -> pairs R (y :: b) = true ->
    pairs R (a ++ y :: b) = true.
Proof.
  intros R a y b. induction a as [|x a IH]; intros Ha Hb; [exact Hb|].
  destruct a as [|x' a].
  - simpl in *. rewrite Hb. rewrite andb_true_r in Ha. rewrite Ha.
    reflexivity.
  - simpl app in *. rewrite pairs_cons in *. apply andb_prop in Ha.
    destruct Ha as [H1 H2]. rewrite H1. simpl. apply IH; assumption.
Qed.

Lemma ends_clean_app :
  forall a b, b <> [] -> ends_clean (a ++ b) = ends_clean b.
Proof.
  intros a b Hb. unfold ends_clean. rewrite rev_app_distr.
  destruct (rev b) as [|c rb] eqn:E; [|reflexivity].
  apply (f_equal (@rev ascii)) in E. rewrite rev_involutive in E.
  simpl in E. congruence.
Qed.

Lemma forallb_app_inv :
  forall (f : ascii -> bool) a b,
    forallb f (a ++ b) = true -> forallb f a = true /\ forallb f b = true.
Proof.
  intros f a b H. rewrite forallb_app in H. apply andb_prop, H.
Qed.

Section Substitution.

Variable ic : bool.
Variable r : regex.
Variable tpl : list titem.

(** The pattern cannot match the empty string. *)
Hypothesis Hmin : 1 <= min_len r.

(** For a pattern that cannot match the empty string: the result of
    [re.sub] is built from copied characters and expanded matches. *)
Lemma sub_go_ind :
  forall P : str -> str -> str -> Prop,
    (forall p, P p [] []) ->
    (forall p c s,
       match_at ic r p (c :: s) = None ->
       P (c :: p) s (sub_go ic r tpl 0 (c :: p) s) ->
       P p (c :: s) (c :: sub_go ic r tpl 0 (c :: p) s)) ->
    (forall p s st m,
       match_at ic r p s = Some st -> s = m ++ suf st -> m <> [] ->
       P (rev m ++ p) (suf st) (sub_go ic r tpl 0 (rev m ++ p) (suf st)) ->
       P p s (expand tpl st ++ sub_go ic r tpl 0 (rev m ++ p) (suf st))) ->
    forall s p, P p s (sub_go ic r tpl 0 p s).
Proof.
  intros P Hnil Hcopy Hmatch s.
  remember (length s) as n eqn:Hn. revert s Hn.
  induction n as [n IH] using lt_wf_ind. intros s Hn p.
  destruct (match_at ic r p s) as [st|] eqn:Em.
  - destruct (match_at_consumes ic r p s st Em) as (m & Hs & Hlen).
    assert (Hm : m <> []) by (intros ->; simpl in Hlen; lia).
    rewrite (sub_go_match ic r tpl p s st m Em Hs Hm).
    apply (Hmatch p s st m Em Hs Hm).
    apply (IH (length (suf st))); [|reflexivity].
    subst n. rewrite Hs, length_app.
    destruct m; [congruence|simpl; lia].
  - destruct s as [|c s].
    + cbn [sub_go]. rewrite Em. apply Hnil.
    + rewrite (sub_go_no_match _ _ _ _ _ _ Em).
      apply (Hcopy p c s Em). apply (IH (length s)); [|reflexivity].
      subst n. simpl. lia.
Qed.

(** Pairs of the result, for a substitution whose replacements keep the
    first character of the match. *)
Lemma sub_pairs :
  forall Rin Rout : ascii -> ascii -> bool,
    (forall p c y s,
       match_at ic r p (c :: y :: s) = None ->
       Rin c y = true -> Rout c y = true) ->
    (forall p s st m,
       match_at ic r p s = Some st -> s = m ++ suf st -> m <> [] ->
       pairs Rin s = true ->
       hd_error (expand tpl st) = hd_error m /\
       pairs Rout (expand tpl st ++ firstn 1 (suf st)) = true) ->
    forall s p,
      pairs Rin s = true ->
      hd_error (sub_go ic r tpl 0 p s) = hd_error s /\
      pairs Rout (sub_go ic r tpl 0 p s) = true.
Proof.
  intros Rin Rout Hcopy Hmatch s p.
  apply (sub_go_ind
           (fun p s o => pairs Rin s = true ->
                         hd_error o = hd_error s /\ pairs Rout o = true));
    [auto| |].
  - intros p0 c s0 Hm IH Hin.
    destruct (IH (pairs_tl _ _ _ Hin)) as [Hhd Hout].
    split; [reflexivity|].
    destruct s0 as [|y s0].
    + apply hd_error_nil in Hhd. rewrite Hhd. reflexivity.
    + destruct (sub_go ic r tpl 0 (c :: p0) (y :: s0)) as [|y' o2];
        [discriminate|].
      injection Hhd as ->. rewrite pairs_cons, Hout, andb_true_r.
      apply (Hcopy p0 c y s0 Hm). rewrite pairs_cons in Hin.
      apply andb_prop in Hin. apply Hin.
  - intros p0 s0 st m Hm Hs Hne IH Hin.
    destruct (Hmatch p0 s0 st m Hm Hs Hne Hin) as [Hhd Hout].
    assert (Hin' : pairs Rin (suf st) = true).
    { rewrite Hs in Hin. apply (pairs_app_r _ _ _ Hin). }
    destruct (IH Hin') as [Hhd2 Hout2].
    assert (He : expand tpl st <> []).
    { intros E. rewrite E in Hhd. destruct m; [congruence|discriminate]. }
    split.
    + destruct (expand tpl st) as [|e0 e]; [congruence|].
      rewrite Hs. destruct m; [congruence|]. exact Hhd.
    + destruct (suf st) as [|y rest].
      * apply hd_error_nil in Hhd2. rewrite Hhd2.
        simpl in Hout. exact Hout.
      * destruct (sub_go ic r tpl 0 (rev m ++ p0) (y :: rest)) as [|y' o2];
          [discriminate|].
        injection Hhd2 as ->. apply pairs_join; assumption.
Qed.

(** A property of every character, kept by the replacements. *)
Lemma sub_forallb :
  forall f : ascii -> bool,
    (forall p s st m,
       match_at ic r p s = Some st -> s = m ++ suf st ->
       forallb f m = true -> forallb f (expand tpl st) = true) ->
    forall s p,
      forallb f s = true -> forallb f (sub_go ic r tpl 0 p s) = true.
Proof.
  intros f Hmatch s p.
  apply (sub_go_ind
           (fun p s o => forallb f s = true -> forallb f o = true));
    [auto| |].
  - intros p0 c s0 _ IH H. simpl in *. apply andb_prop in H.
    destruct H as [Hc H]. rewrite Hc. apply IH, H.
  - intros p0 s0 st m Hm Hs _ IH H. rewrite Hs in H.
    apply forallb_app_inv in H. destruct H as [H1 H2].
    rewrite forallb_app, (Hmatch p0 s0 st m Hm Hs H1). apply IH, H2.
Qed.

(** The last character, for replacements that are non-empty and end in a
    character that is no whitespace. *)
Lemma sub_ends_clean :
  (forall p s st m,
       match_at ic r p s = Some st -> s = m ++ suf st ->
       expand tpl st <> [] /\ ends_clean (expand tpl st) = true) ->
    forall s p,
      (s = [] <-> sub_go ic r tpl 0 p s = []) /\
      (ends_clean s = true -> ends_clean (sub_go ic r tpl 0 p s) = true).
Proof.
  intros Hmatch s p.
  apply (sub_go_ind
           (fun p s o => (s = [] <-> o = []) /\
                         (ends_clean s = true -> ends_clean o = true)));
    [intros; split; [tauto|auto]| |].
  - intros p0 c s0 _ [Hnil IH]. split; [split; discriminate|].
    intros H. destruct s0 as [|y s0].
    + rewrite (proj1 Hnil eq_refl). exact H.
    + change (c :: y :: s0) with ([c] ++ y :: s0) in H.
      rewrite ends_clean_app in H by discriminate.
      change (c :: sub_go ic r tpl 0 (c :: p0) (y :: s0))
        with ([c] ++ sub_go ic r tpl 0 (c :: p0) (y :: s0)).
      rewrite ends_clean_app; [apply IH, H|].
      intros E. apply Hnil in E. discriminate.
  - intros p0 s0 st m Hm Hs Hne [Hnil IH].
    destruct (Hmatch p0 s0 st m Hm Hs) as [He Hc].
    split.
    + split; intros E.
      * rewrite E in Hs. destruct m; [congruence|discriminate].
      * apply app_eq_nil in E. destruct E as [E _]. congruence.
    + intros H. destruct (suf st) as [|y rest] eqn:Es.
      * rewrite (proj1 Hnil eq_refl), app_nil_r. exact Hc.
      * rewrite ends_clean_app.
        -- apply IH. rewrite Hs, ends_clean_app in H by discriminate.
           exact H.
        -- intros E. apply Hnil in E. discriminate.
Qed.

End Substitution.

(** ** Stripping *)

Lemma lstrip_split :
  forall s, exists ws,
    s = ws ++ lstrip s /\ forallb is_space ws = true /\
    starts_clean (lstrip s) = true.
Proof.
  induction s as [|c s (ws & Hs & Hws & Hc)].
  - exists []. auto.
  - simpl. destruct (is_space c) eqn:E.
    + exists (c :: ws). simpl. rewrite E, Hws. rewrite <- Hs. auto.
    + exists []. simpl. rewrite E. auto.
Qed.

Lemma lstrip_clean : forall s, starts_clean s = true -> lstrip s = s.
Proof.
  intros [|c s] H; [reflexivity|]. simpl in *.
  destruct (is_space c); [discriminate|reflexivity].
Qed.

Lemma rstrip_split :
  forall s, exists ws,
    s = rstrip s ++ ws /\ forallb is_space ws = true /\
    ends_clean (rstrip s) = true.
Proof.
  intros s. unfold rstrip, ends_clean.
  destruct (lstrip_split (rev s)) as (ws & Hs & Hws & Hc).
  exists (rev ws). rewrite rev_involutive. repeat split.
  - rewrite <- rev_app_distr, <- Hs, rev_involutive. reflexivity.
  - rewrite forallb_forall in *. intros x Hx. apply Hws, in_rev, Hx.
  - exact Hc.
Qed.

Lemma rstrip_clean : forall s, ends_clean s = true -> rstrip s = s.
Proof.
  intros s H. unfold rstrip. rewrite lstrip_clean by exact H.
  apply rev_involutive.
Qed.

Lemma strip_clean :
  forall s, starts_clean s = true -> ends_clean s = true -> strip s = s.
Proof.
  intros s Hs He. unfold strip. rewrite lstrip_clean by exact Hs.
  apply rstrip_clean, He.
Qed.

Lemma strip_single_spaced :
  forall s,
    forallb plain_space s = true -> pairs no_double_space s = true ->
    single_spaced (strip s).
Proof.
  intros s Hp Hd. unfold strip.
  destruct (lstrip_split s) as (ws & Hs & _ & Hc).
  destruct (rstrip_split (lstrip s)) as (ws' & Hs' & _ & Hc').
  rewrite Hs in Hp, Hd.
  apply forallb_app_inv in Hp. destruct Hp as [_ Hp].
  apply pairs_app_r in Hd.
  rewrite Hs' in Hp, Hd, Hc.
  apply forallb_app_inv in Hp. destruct Hp as [Hp _].
  apply pairs_app_l in Hd.
  repeat split; try assumption.
  destruct (rstrip (lstrip s)); [reflexivity|exact Hc].
Qed.

(** ** Whitespace normalization *)

Lemma many1_none :
  forall q k pr sf cs, not_at q sf -> many1 q k pr sf cs = None.
Proof.
  intros q k pr [|y sf] cs H; simpl in *; [reflexivity|].
  rewrite H. reflexivity.
Qed.

Lemma many1_one :
  forall q k pr x sf cs,
    q x = true -> not_at q sf ->
    many1 q k pr (x :: sf) cs = k (MState (x :: pr) sf cs).
Proof.
  intros q k pr x sf cs Hx Hsf. simpl. rewrite Hx.
  rewrite many1_none by exact Hsf. reflexivity.
Qed.

Lemma many1_greedy :
  forall q sf x pr cs,
    q x = true ->
    exists m rest,
      many1 q Some pr (x :: sf) cs = Some (MState (rev m ++ pr) rest cs) /\
      x :: sf = m ++ rest /\ m <> [] /\ forallb q m = true /\
      not_at q rest.
Proof.
  intros q sf. induction sf as [|y sf IH]; intros x pr cs Hx.
  - exists [x], []. simpl. rewrite Hx. repeat split. discriminate.
  - destruct (q y) eqn:Ey.
    + destruct (IH y (x :: pr) cs Ey)
        as (m & rest & Hm & Hs & _ & Hq & Hrest).
      exists (x :: m), rest. cbn [many1]. rewrite Hx.
      cbn [many1] in Hm. rewrite Hm. simpl. rewrite <- app_assoc, Hx, Hq.
      repeat split; [rewrite Hs; reflexivity|discriminate|exact Hrest].
    + exists [x], (y :: sf). rewrite many1_one by (simpl; assumption).
      simpl. rewrite Hx. repeat split; [discriminate|exact Ey].
Qed.

Lemma match_spaces :
  forall p s, match_at false re_spaces p s = many1 is_space Some p s [].
Proof.
  intros p s. unfold match_at, re_spaces. apply run_plus_cls.
Qed.

Lemma match_spaces_none :
  forall p c s, match_at false re_spaces p (c :: s) = None ->
                is_space c = false.
Proof.
  intros p c s H. rewrite match_spaces in H.
  destruct (is_space c) eqn:E; [|reflexivity].
  destruct (many1_greedy is_space s c p [] E) as (m & rest & Hm & _).
  congruence.
Qed.

Lemma starts_clean_not_at :
  forall s, not_at is_space s -> starts_clean s = true.
Proof.
  intros [|c s] H; simpl in *; [reflexivity|]. rewrite H. reflexivity.
Qed.

Lemma pairs_first :
  forall R a s,
    (forall b, R a b = true) -> pairs R s = true -> pairs R (a :: s) = true.
Proof.
  intros R a [|b s] Ha H; [reflexivity|].
  rewrite pairs_cons, Ha. exact H.
Qed.

Lemma collapse_shape :
  forall s p,
    let o := sub_go false re_spaces [TChr space] 0 p s in
    forallb plain_space o = true /\ pairs no_double_space o = true /\
    (starts_clean s = true -> starts_clean o = true).
Proof.
  intros s p.
  apply (sub_go_ind false re_spaces [TChr space] ltac:(simpl; lia)
           (fun p s o =>
              forallb plain_space o = true /\
              pairs no_double_space o = true /\
              (starts_clean s = true -> starts_clean o = true))).
  - intros _. auto.
  - intros p0 c s0 Hm (Hp & Hd & _).
    apply match_spaces_none in Hm.
    repeat split.
    + simpl. unfold plain_space at 1. rewrite Hm. simpl. exact Hp.
    + apply pairs_first; [|exact Hd].
      intros b. unfold no_double_space. rewrite Hm. reflexivity.
    + intros _. simpl. rewrite Hm. reflexivity.
  - intros p0 s0 st m Hm Hs Hne (Hp & Hd & Hc).
    assert (Hrest : not_at is_space (suf st)).
    { rewrite match_spaces in Hm. destruct s0 as [|x s0]; [discriminate|].
      destruct (is_space x) eqn:Ex.
      - destruct (many1_greedy is_space s0 x p0 [] Ex)
          as (m' & rest & Hm' & _ & _ & _ & Hrest).
        rewrite Hm' in Hm. injection Hm as <-. exact Hrest.
      - simpl in Hm. rewrite Ex in Hm. discriminate. }
    specialize (Hc (starts_clean_not_at _ Hrest)).
    change (expand [TChr space] st) with [space].
    repeat split.
    + simpl. exact Hp.
    + simpl app.
      destruct (sub_go false re_spaces [TChr space] 0 (rev m ++ p0) (suf st))
        as [|b o2]; [reflexivity|].
      rewrite pairs_cons, Hd. simpl in Hc.
      unfold no_double_space. destruct (is_space b); [discriminate|].
      rewrite andb_false_r. reflexivity.
    + intros Hstart. exfalso.
      rewrite match_spaces in Hm. destruct s0 as [|x s0]; [discriminate|].
      simpl in Hstart, Hm. destruct (is_space x); discriminate.
Qed.

Lemma plain_space_is_space :
  forall c, plain_space c = true -> is_space c = true -> c = space.
Proof.
  intros c Hp Hs. unfold plain_space in Hp. rewrite Hs in Hp. simpl in Hp.
  apply Ascii.eqb_eq, Hp.
Qed.

Lemma collapse_identity :
  forall s p,
    forallb plain_space s = true -> pairs no_double_space s = true ->
    sub_go false re_spaces [TChr space] 0 p s = s.
Proof.
  induction s as [|c s IH]; intros p Hp Hd.
  - reflexivity.
  - simpl in Hp. apply andb_prop in Hp. destruct Hp as [Hc Hp].
    pose proof (pairs_tl _ _ _ Hd) as Hd'.
    destruct (is_space c) eqn:Ec.
    + assert (Hs : not_at is_space s).
      { destruct s as [|y s]; [exact I|]. simpl.
        rewrite pairs_cons in Hd. apply andb_prop in Hd.
        destruct Hd as [Hd _]. unfold no_double_space in Hd.
        rewrite Ec in Hd. simpl in Hd. apply negb_true_iff, Hd. }
      assert (Hm : match_at false re_spaces p (c :: s)
                   = Some (MState (c :: p) s [])).
      { rewrite match_spaces. apply many1_one; assumption. }
      rewrite (sub_go_match false re_spaces [TChr space] p (c :: s)
                 _ [c] Hm eq_refl ltac:(discriminate)).
      change (expand [TChr space] (MState (c :: p) s [])) with [space].
      rewrite (plain_space_is_space c Hc Ec). simpl.
      f_equal. apply IH; assumption.
    + assert (Hm : match_at false re_spaces p (c :: s) = None).
      { rewrite match_spaces. apply many1_none. exact Ec. }
      rewrite sub_go_no_match by exact Hm. f_equal. apply IH; assumption.
Qed.

(** ** De-stuttering keeps single spacing *)

Lemma solid_pairs :
  forall a b,
    solid a = true -> pairs no_double_space b = true ->
    pairs no_double_space (a ++ b) = true.
Proof.
  induction a as [|x a IH]; intros b Ha Hb; [exact Hb|].
  simpl in Ha. apply andb_prop in Ha. destruct Ha as [Hx Ha].
  simpl app. apply pairs_first; [|apply IH; assumption].
  intros y. unfold no_double_space.
  apply negb_true_iff in Hx. rewrite Hx. reflexivity.
Qed.

Lemma solid_plain : forall a, solid a = true -> forallb plain_space a = true.
Proof.
  induction a as [|x a IH]; intros H; [reflexivity|].
  simpl in *. apply andb_prop in H. destruct H as [Hx Ha].
  unfold plain_space at 1. rewrite Hx. simpl. apply IH, Ha.
Qed.

Lemma solid_starts : forall a, solid a = true -> starts_clean a = true.
Proof.
  intros [|x a] H; [reflexivity|]. simpl in *.
  apply andb_prop in H. apply H.
Qed.

Lemma solid_rev : forall a, solid a = true -> solid (rev a) = true.
Proof.
  intros a H. unfold solid in *. rewrite forallb_forall in *.
  intros x Hx. apply H, in_rev, Hx.
Qed.

Lemma solid_ends : forall a, solid a = true -> ends_clean a = true.
Proof.
  intros a H. apply solid_starts, solid_rev, H.
Qed.

Lemma words_solid : forall w, forallb is_word w = true -> solid w = true.
Proof.
  induction w as [|x w IH]; intros H; [reflexivity|].
  simpl in *. apply andb_prop in H. destruct H as [Hx Hw].
  rewrite (word_not_space x Hx). simpl. apply IH, Hw.
Qed.

Lemma pairs_short : forall R (s : str), pairs R (firstn 1 s) = true.
Proof. intros R [|c s]; reflexivity. Qed.

Lemma matches_plus_cls :
  forall ic q st st',
    matches ic (Plus (Cls q)) st st' ->
    exists w, spans st st' w /\ w <> [] /\ forallb q w = true /\
              caps st' = caps st.
Proof.
  intros ic q st st' H. remember (Plus (Cls q)) as r eqn:Er.
  induction H as [st|c x pr sf cs _|p x pr sf cs _|st _|st _|st _
                  |r1 r2 st st1 st2 _ _ _ _
                  |r1 r2 st st' _ _|r1 r2 st st' _ _
                  |r0 st st' H _
                  |r0 st st1 st2 H1 _ H2 IH2
                  |n r0 st st' _ _
                  |n st w p' s' _ _]; try discriminate.
  - injection Er as ->. apply matches_cls_inv in H.
    destruct H as (x & sf & Hs & Hx & ->).
    exists [x]. repeat split; simpl; try assumption;
      [discriminate|rewrite Hx; reflexivity].
  - injection Er as ->. apply matches_cls_inv in H1.
    destruct H1 as (x & sf & Hs & Hx & ->).
    destruct (IH2 eq_refl) as (w & Hw & _ & Hq & Hc).
    exists (x :: w). repeat split.
    + destruct Hw as [Hp _]. rewrite Hp. simpl. rewrite <- app_assoc.
      reflexivity.
    + destruct Hw as [_ Hw]. simpl in Hw. rewrite Hs, Hw. reflexivity.
    + discriminate.
    + simpl. rewrite Hx. exact Hq.
    + exact Hc.
Qed.

Lemma matches_ref_inv :
  forall ic n st st',
    matches ic (Ref n) st st' ->
    exists w p' s',
      get_cap n (caps st) = Some w /\
      eat ic w (pre st) (suf st) = Some (p', s') /\
      st' = MState p' s' (caps st).
Proof.
  intros ic n st st' H. inversion H; subst. eauto 6.
Qed.

Lemma stutter_match_shape :
  forall p s st,
    match_at true re_stutter p s = Some st ->
    exists w tail,
      s = w ++ tail ++ suf st /\ w <> [] /\ forallb is_word w = true /\
      expand [TGrp 1] st = w.
Proof.
  intros p s st Hm. apply match_at_sound in Hm.
  unfold re_stutter, seqs in Hm.
  apply matches_seq_inv in Hm. destruct Hm as (s1 & H1 & Hm).
  apply matches_wordb_inv in H1. destruct H1 as [-> _].
  apply matches_seq_inv in Hm. destruct Hm as (s2 & H2 & Hm).
  apply matches_grp_inv in H2. destruct H2 as (sa & Ha & ->).
  apply matches_seq_inv in Hm. destruct Hm as (s3 & H3 & Hm).
  apply matches_seq_inv in Hm. destruct Hm as (s4 & H4 & H5).
  apply matches_wordb_inv in H5. destruct H5 as [-> _].
  apply matches_plus_cls in Ha. destruct Ha as (w & Hw & Hne & Hword & Hca).
  apply matches_plus_cls in H3. destruct H3 as (ws & Hws & _ & _ & Hcb).
  apply matches_ref_inv in H4.
  destruct H4 as (w0 & p' & s' & Hcap & Heat & ->).
  apply eat_spans in Heat. destruct Heat as (v & _ & _ & Hv).
  rewrite (spans_consumed _ _ _ Hw) in *.
  exists w, (ws ++ v). repeat split; try assumption.
  - destruct Hw as [_ Hw], Hws as [_ Hws]. simpl in *.
    rewrite Hw, Hws, Hv, <- !app_assoc. reflexivity.
  - unfold expand. simpl. rewrite Hcb. simpl. apply app_nil_r.
Qed.

Lemma app_same_tail :
  forall (a b c : str), a ++ c = b ++ c -> a = b.
Proof. intros a b c H. apply (app_inv_tail c a b H). Qed.

Lemma destutter_single_spaced :
  forall s, single_spaced s -> single_spaced (destutter s).
Proof.
  intros s (Hp & Hd & Hs & He). unfold destutter, sub.
  assert (Hmin : 1 <= min_len re_stutter) by (simpl; lia).
  assert (Hshape : forall p s st m,
            match_at true re_stutter p s = Some st -> s = m ++ suf st ->
            exists w tail, m = w ++ tail /\ w <> [] /\ solid w = true /\
                           expand [TGrp 1] st = w).
  { intros p s0 st m Hm Hs0.
    destruct (stutter_match_shape p s0 st Hm) as (w & tail & Hs1 & Hne & Hw & He1).
    exists w, tail. repeat split; try assumption; [|apply words_solid, Hw].
    rewrite Hs0, app_assoc in Hs1. apply app_same_tail in Hs1. exact Hs1. }
  destruct (sub_pairs true re_stutter [TGrp 1] Hmin
              no_double_space no_double_space
              ltac:(intros; assumption)) with (s := s) (p := @nil ascii)
    as [Hhd Hout]; [|exact Hd|].
  { intros p s0 st m Hm Hs0 Hne _.
    destruct (Hshape p s0 st m Hm Hs0) as (w & tail & -> & Hw & Hsol & ->).
    split.
    - destruct w; [congruence|reflexivity].
    - apply solid_pairs; [exact Hsol|apply pairs_short]. }
  destruct (sub_ends_clean true re_stutter [TGrp 1] Hmin) with (s := s)
    (p := @nil ascii) as [_ Hend].
  { intros p s0 st m Hm Hs0.
    destruct (Hshape p s0 st m Hm Hs0) as (w & tail & -> & Hw & Hsol & ->).
    split; [exact Hw|apply solid_ends, Hsol]. }
  repeat split.
  - apply (sub_forallb true re_stutter [TGrp 1] Hmin plain_space);
      [|exact Hp].
    intros p s0 st m Hm Hs0 _.
    destruct (Hshape p s0 st m Hm Hs0) as (w & tail & -> & Hw & Hsol & ->).
    apply solid_plain, Hsol.
  - exact Hout.
  - destruct s as [|c s]; [apply hd_error_nil in Hhd; rewrite Hhd; reflexivity|].
    destruct (sub_go true re_stutter [TGrp 1] 0 [] (c :: s)); [reflexivity|].
    injection Hhd as ->. exact Hs.
  - apply Hend, He.
Qed.

(** ** Spacing before punctuation *)

Lemma space_punct_match_shape :
  forall p s st,
    match_at false re_space_punct p s = Some st ->
    exists ws q,
      s = ws ++ q :: suf st /\ ws <> [] /\ forallb is_space ws = true /\
      is_punct q = true /\ expand [TGrp 1] st = [q].
Proof.
  intros p s st Hm. apply match_at_sound in Hm.
  unfold re_space_punct, seqs in Hm.
  apply matches_seq_inv in Hm. destruct Hm as (s1 & H1 & H2).
  apply matches_plus_cls in H1. destruct H1 as (ws & Hws & Hne & Hsp & Hc).
  apply matches_grp_inv in H2. destruct H2 as (sa & Ha & ->).
  apply matches_cls_inv in Ha. destruct Ha as (q & sf & Hs & Hq & ->).
  rewrite (spans_consumed _ _ [q]) by (split; [reflexivity|exact Hs]).
  exists ws, q. repeat split; try assumption.
  destruct Hws as [_ Hws]. simpl in *. rewrite Hws, Hs. reflexivity.
Qed.

Lemma space_punct_match_head :
  forall p a b rest,
    is_space a = true -> is_punct b = true ->
    match_at false re_space_punct p (a :: b :: rest) <> None.
Proof.
  intros p a b rest Ha Hb.
  change (match_at false re_space_punct p (a :: b :: rest))
    with (run false (Plus (Cls is_space)) (MState p (a :: b :: rest) [])
            (fun st' => run false (Grp 1 (Cls is_punct)) st' Some)).
  rewrite run_plus_cls. cbn [pre suf caps].
  rewrite many1_one; [|exact Ha|simpl; apply punct_not_space, Hb].
  cbn [run suf pre caps]. rewrite Hb. discriminate.
Qed.

Lemma tighten_pairs :
  forall s p,
    pairs no_double_space s = true ->
    let o := sub_go false re_space_punct [TGrp 1] 0 p s in
    (starts_clean s = true -> hd_error o = hd_error s) /\
    pairs no_double_space o = true /\
    pairs no_space_before_punct o = true.
Proof.
  intros s p.
  apply (sub_go_ind false re_space_punct [TGrp 1] ltac:(simpl; lia)
           (fun p s o =>
              pairs no_double_space s = true ->
              (starts_clean s = true -> hd_error o = hd_error s) /\
              pairs no_double_space o = true /\
              pairs no_space_before_punct o = true)).
  - intros _ _. auto.
  - intros p0 c s0 Hm IH Hd.
    destruct (IH (pairs_tl _ _ _ Hd)) as (Hhd & Hnd & Hsp).
    split; [reflexivity|].
    destruct (is_space c) eqn:Ec.
    + destruct s0 as [|y s0].
      * rewrite (hd_error_nil _ (Hhd eq_refl)). auto.
      * rewrite pairs_cons in Hd. apply andb_prop in Hd.
        destruct Hd as [Hcy _]. unfold no_double_space in Hcy.
        rewrite Ec in Hcy. simpl in Hcy. apply negb_true_iff in Hcy.
        assert (Hy : starts_clean (y :: s0) = true)
          by (simpl; rewrite Hcy; reflexivity).
        specialize (Hhd Hy).
        destruct (sub_go false re_space_punct [TGrp 1] 0 (c :: p0) (y :: s0))
          as [|y' o2]; [discriminate|].
        injection Hhd as ->. rewrite !pairs_cons, Hnd, Hsp, !andb_true_r.
        unfold no_double_space, no_space_before_punct.
        rewrite Ec, Hcy. simpl. split; [reflexivity|].
        destruct (is_punct y) eqn:Ep; [|reflexivity].
        exfalso. apply (space_punct_match_head p0 c y s0 Ec Ep Hm).
    + split; apply pairs_first; try assumption; intros b;
        unfold no_double_space, no_space_before_punct; rewrite Ec;
        reflexivity.
  - intros p0 s0 st m Hm Hs Hne IH Hd.
    destruct (space_punct_match_shape p0 s0 st Hm)
      as (ws & q & Hs' & Hws & Hsp & Hq & ->).
    assert (Hd' : pairs no_double_space (suf st) = true).
    { rewrite Hs in Hd. apply (pairs_app_r _ _ _ Hd). }
    destruct (IH Hd') as (_ & Hnd & Hpp).
    pose proof (punct_not_space q Hq) as Hqs.
    split.
    + intros Hstart. exfalso. rewrite Hs' in Hstart.
      destruct ws as [|x ws]; [congruence|]. simpl in Hstart, Hsp.
      destruct (is_space x); discriminate.
    + split; apply pairs_first; try assumption; intros b;
        unfold no_double_space, no_space_before_punct; rewrite Hqs;
        reflexivity.
Qed.

Lemma starts_clean_hd :
  forall o s : str,
    hd_error o = hd_error s -> starts_clean s = true ->
    starts_clean o = true.
Proof.
  intros [|a o] [|b s] H Hs; try discriminate; [reflexivity|].
  injection H as ->. exact Hs.
Qed.

Lemma tighten_shape :
  forall s,
    single_spaced s ->
    single_spaced (tighten_punct s) /\
    pairs no_space_before_punct (tighten_punct s) = true.
Proof.
  intros s (Hp & Hd & Hs & He). unfold tighten_punct, sub.
  assert (Hmin : 1 <= min_len re_space_punct) by (simpl; lia).
  destruct (tighten_pairs s [] Hd) as (Hhd & Hnd & Hsp).
  assert (Hexp : forall p s st m,
            match_at false re_space_punct p s = Some st -> s = m ++ suf st ->
            exists q, expand [TGrp 1] st = [q] /\ is_space q = false).
  { intros p s0 st m Hm _.
    destruct (space_punct_match_shape p s0 st Hm)
      as (ws & q & _ & _ & _ & Hq & ->).
    exists q. split; [reflexivity|apply punct_not_space, Hq]. }
  destruct (sub_ends_clean false re_space_punct [TGrp 1] Hmin) with (s := s)
    (p := @nil ascii) as [_ Hend].
  { intros p s0 st m Hm Hs0.
    destruct (Hexp p s0 st m Hm Hs0) as (q & -> & Hq).
    split; [discriminate|]. unfold ends_clean. simpl. rewrite Hq.
    reflexivity. }
  split; [|exact Hsp]. repeat split.
  - apply (sub_forallb false re_space_punct [TGrp 1] Hmin plain_space);
      [|exact Hp].
    intros p s0 st m Hm Hs0 _.
    destruct (Hexp p s0 st m Hm Hs0) as (q & -> & Hq).
    simpl. unfold plain_space. rewrite Hq. reflexivity.
  - exact Hnd.
  - apply (starts_clean_hd _ s (Hhd Hs) Hs).
  - apply Hend, He.
Qed.

(** ** Space after punctuation *)

Lemma consumed_step :
  forall p x s cs s' cs',
    consumed (MState p s cs) (MState (x :: p) s' cs') = [x].
Proof.
  intros p x s cs s' cs'. unfold consumed. cbn [pre length].
  replace (S (length p) - length p) with 1 by lia. reflexivity.
Qed.

Lemma punct_letter_match_shape :
  forall p s st,
    match_at false re_punct_letter p s = Some st ->
    exists q l,
      s = q :: l :: suf st /\ is_punct q = true /\
      is_ascii_letter l = true /\
      expand [TGrp 1; TChr space; TGrp 2] st = [q; space; l].
Proof.
  intros p s st Hm. apply match_at_sound in Hm.
  unfold re_punct_letter, seqs in Hm.
  apply matches_seq_inv in Hm. destruct Hm as (s1 & H1 & H2).
  apply matches_grp_inv in H1. destruct H1 as (sa & Ha & ->).
  apply matches_grp_inv in H2. destruct H2 as (sb & Hb & ->).
  apply matches_cls_inv in Ha. destruct Ha as (q & sf & Hs & Hq & ->).
  apply matches_cls_inv in Hb. destruct Hb as (l & sf' & Hs' & Hl & ->).
  simpl in Hs, Hs'. subst s sf. cbn [set_cap pre suf caps].
  unfold set_cap. cbn [pre suf caps]. rewrite !consumed_step.
  exists q, l. repeat split; assumption.
Qed.

Lemma punct_letter_match_head :
  forall p a b rest,
    is_punct a = true -> is_ascii_letter b = true ->
    match_at false re_punct_letter p (a :: b :: rest) <> None.
Proof.
  intros p a b rest Ha Hb. unfold match_at, re_punct_letter, seqs.
  cbn [run suf pre caps set_cap]. rewrite Ha.
  cbn [run suf pre caps set_cap]. rewrite Hb. discriminate.
Qed.

Lemma pairs_any : forall s, pairs any_pair s = true.
Proof.
  induction s as [|a [|b s] IH]; try reflexivity.
  rewrite pairs_cons. exact IH.
Qed.

Lemma space_after_shape :
  forall s,
    single_spaced s -> pairs no_space_before_punct s = true ->
    single_spaced (space_after_punct s) /\
    pairs no_space_before_punct (space_after_punct s) = true /\
    pairs no_punct_before_letter (space_after_punct s) = true.
Proof.
  intros s (Hp & Hd & Hs & He) Hsp. unfold space_after_punct, sub.
  set (tpl := [TGrp 1; TChr space; TGrp 2]).
  assert (Hmin : 1 <= min_len re_punct_letter) by (simpl; lia).
  assert (Hshape : forall p s st m,
            match_at false re_punct_letter p s = Some st ->
            s = m ++ suf st ->
            exists q l, m = [q; l] /\ expand tpl st = [q; space; l] /\
                        is_space q = false /\ is_space l = false /\
                        is_punct l = false /\ is_punct q = true).
  { intros p s0 st m Hm Hs0.
    destruct (punct_letter_match_shape p s0 st Hm)
      as (q & l & Hs1 & Hq & Hl & He1).
    exists q, l. repeat split;
      [|exact He1|apply punct_not_space, Hq|apply letter_not_space, Hl
       |apply letter_not_punct, Hl|exact Hq].
    rewrite Hs0 in Hs1. change (q :: l :: suf st) with ([q; l] ++ suf st) in Hs1.
    apply app_same_tail in Hs1. exact Hs1. }
  assert (Hjoin : forall R : ascii -> ascii -> bool,
            (forall q l y, is_space q = false -> is_space l = false ->
                           is_punct l = false -> is_punct q = true ->
                           R q space = true /\ R space l = true /\
                           R l y = true) ->
            forall p s st m,
              match_at false re_punct_letter p s = Some st ->
              s = m ++ suf st -> m <> [] ->
              hd_error (expand tpl st) = hd_error m /\
              pairs R (expand tpl st ++ firstn 1 (suf st)) = true).
  { intros R HR p s0 st m Hm Hs0 _.
    destruct (Hshape p s0 st m Hm Hs0) as (q & l & -> & -> & H1 & H2 & H3 & H4).
    split; [reflexivity|].
    destruct (HR q l space H1 H2 H3 H4) as (Ha & Hb & _).
    destruct (suf st) as [|y rest]; simpl; rewrite Ha, Hb; [reflexivity|].
    destruct (HR q l y H1 H2 H3 H4) as (_ & _ & Hc). rewrite Hc.
    reflexivity. }
  destruct (sub_pairs false re_punct_letter tpl Hmin
              no_double_space no_double_space
              ltac:(intros; assumption)) with (s := s) (p := @nil ascii)
    as [Hhd Hnd]; [|exact Hd|].
  { intros p s0 st m Hm Hs0 Hne _.
    refine (Hjoin no_double_space _ p s0 st m Hm Hs0 Hne).
    intros q l y H1 H2 H3 H4. unfold no_double_space.
    rewrite H1, H2. simpl. rewrite ?andb_false_r. auto. }
  destruct (sub_pairs false re_punct_letter tpl Hmin
              no_space_before_punct no_space_before_punct
              ltac:(intros; assumption)) with (s := s) (p := @nil ascii)
    as [_ Hsp']; [|exact Hsp|].
  { intros p s0 st m Hm Hs0 Hne _.
    refine (Hjoin no_space_before_punct _ p s0 st m Hm Hs0 Hne).
    intros q l y H1 H2 H3 H4. unfold no_space_before_punct.
    rewrite H1, H2, H3. simpl. auto. }
  destruct (sub_pairs false re_punct_letter tpl Hmin
              any_pair no_punct_before_letter) with (s := s)
    (p := @nil ascii) as [_ Hpl]; [| |apply pairs_any|].
  { intros p c y s0 Hm _. unfold no_punct_before_letter.
    destruct (is_punct c) eqn:Ec; [|reflexivity].
    destruct (is_ascii_letter y) eqn:Ey; [|reflexivity].
    exfalso. apply (punct_letter_match_head p c y s0 Ec Ey Hm). }
  { intros p s0 st m Hm Hs0 Hne _.
    refine (Hjoin no_punct_before_letter _ p s0 st m Hm Hs0 Hne).
    intros q l y H1 H2 H3 H4. unfold no_punct_before_letter.
    rewrite H3, H4. simpl. auto. }
  destruct (sub_ends_clean false re_punct_letter tpl Hmin) with (s := s)
    (p := @nil ascii) as [_ Hend].
  { intros p s0 st m Hm Hs0.
    destruct (Hshape p s0 st m Hm Hs0) as (q & l & _ & -> & _ & H2 & _).
    split; [discriminate|]. unfold ends_clean. simpl. rewrite H2.
    reflexivity. }
  split; [|split; assumption]. repeat split.
  - apply (sub_forallb false re_punct_letter tpl Hmin plain_space);
      [|exact Hp].
    intros p s0 st m Hm Hs0 _.
    destruct (Hshape p s0 st m Hm Hs0) as (q & l & _ & -> & H1 & H2 & _).
    simpl. unfold plain_space. rewrite H1, H2. reflexivity.
  - exact Hnd.
  - apply (starts_clean_hd _ s Hhd Hs).
  - apply Hend, He.
Qed.

(** ** Repeated punctuation *)

Lemma plus_loop_ref :
  forall n c k fuel pr sf cs,
    get_cap n cs = Some [c] -> length sf < fuel ->
    plus_loop (run false (Ref n)) k fuel (MState pr sf cs)
      = many1 (Ascii.eqb c) k pr sf cs.
Proof.
  intros n c k fuel. induction fuel as [|fuel IH]; intros pr sf cs Hc Hlen;
    [lia|].
  destruct sf as [|x sf']; cbn [plus_loop run many1 suf pre caps];
    rewrite Hc; cbn [eat eq_char]; [reflexivity|].
  destruct (Ascii.eqb c x); [|reflexivity].
  cbn [suf pre caps].
  assert (Hlt : Nat.ltb (length sf') (length (x :: sf')) = true)
    by (apply Nat.ltb_lt; simpl; lia).
  rewrite Hlt. fold (plus_loop (run false (Ref n)) k).
  rewrite IH by (simpl in Hlen; try assumption; lia). reflexivity.
Qed.

Lemma match_punct_run :
  forall p c s,
    match_at false re_punct_run p (c :: s)
      = if is_punct c
        then many1 (Ascii.eqb c) Some (c :: p) s [(1, [c])]
        else None.
Proof.
  intros p c s.
  change (match_at false re_punct_run p (c :: s))
    with (if is_punct c
          then run false (Plus (Ref 1))
                 (set_cap 1 (consumed (MState p (c :: s) [])
                                      (MState (c :: p) s []))
                          (MState (c :: p) s [])) Some
          else None).
  destruct (is_punct c); [|reflexivity].
  rewrite consumed_step. unfold set_cap. cbn [pre suf caps].
  change (run false (Plus (Ref 1)) (MState (c :: p) s [(1, [c])]) Some)
    with (plus_loop (run false (Ref 1)) Some (S (length s))
            (MState (c :: p) s [(1, [c])])).
  apply plus_loop_ref; [reflexivity|lia].
Qed.

Lemma punct_run_match_head :
  forall p a rest,
    is_punct a = true ->
    match_at false re_punct_run p (a :: a :: rest) <> None.
Proof.
  intros p a rest Ha. rewrite match_punct_run, Ha.
  destruct (many1_greedy (Ascii.eqb a) rest a (a :: p) [(1, [a])]
              (Ascii.eqb_refl a)) as (m & r & Hm & _).
  rewrite Hm. discriminate.
Qed.

Lemma all_same_snoc :
  forall c run,
    forallb (Ascii.eqb c) run = true -> c :: run = run ++ [c].
Proof.
  intros c run. induction run as [|x run IH]; intros H; [reflexivity|].
  simpl in H. apply andb_prop in H. destruct H as [Hx H].
  apply Ascii.eqb_eq in Hx. subst x. simpl. f_equal. apply IH, H.
Qed.

Lemma punct_run_match_shape :
  forall p s st,
    match_at false re_punct_run p s = Some st ->
    exists c run,
      s = c :: run ++ suf st /\ is_punct c = true /\ run <> [] /\
      forallb (Ascii.eqb c) run = true /\
      not_at (Ascii.eqb c) (suf st) /\
      expand [TGrp 1] st = [c].
Proof.
  intros p [|c s] st Hm.
  - apply match_at_consumes in Hm. destruct Hm as (m & Hs & Hlen).
    simpl in Hlen. destruct m; [simpl in Hlen; lia|discriminate].
  - rewrite match_punct_run in Hm.
    destruct (is_punct c) eqn:Ec; [|discriminate].
    destruct s as [|x s]; [discriminate|].
    destruct (Ascii.eqb c x) eqn:Ex;
      [|cbn [many1] in Hm; rewrite Ex in Hm; discriminate].
    destruct (many1_greedy (Ascii.eqb c) s x (c :: p) [(1, [c])] Ex)
      as (m & rest & Hm' & Hs & Hne & Hall & Hrest).
    rewrite Hm' in Hm. injection Hm as <-. cbn [suf].
    exists c, m. repeat split; try assumption.
    rewrite Hs. reflexivity.
Qed.

Lemma dedupe_shape :
  forall s,
    single_spaced s -> pairs no_space_before_punct s = true ->
    pairs no_punct_before_letter s = true ->
    single_spaced (dedupe_punct s) /\
    pairs no_space_before_punct (dedupe_punct s) = true /\
    pairs no_punct_before_letter (dedupe_punct s) = true /\
    pairs no_repeated_punct (dedupe_punct s) = true.
Proof.
  intros s (Hp & Hd & Hs & He) Hsp Hpl. unfold dedupe_punct, sub.
  assert (Hmin : 1 <= min_len re_punct_run) by (simpl; lia).
  assert (Hkeep : forall R : ascii -> ascii -> bool,
            forall p s st m,
              match_at false re_punct_run p s = Some st ->
              s = m ++ suf st -> m <> [] -> pairs R s = true ->
              hd_error (expand [TGrp 1] st) = hd_error m /\
              pairs R (expand [TGrp 1] st ++ firstn 1 (suf st)) = true).
  { intros R p s0 st m Hm Hs0 Hne HR.
    destruct (punct_run_match_shape p s0 st Hm)
      as (c & run & Hs1 & Hc & _ & Hall & _ & ->).
    split.
    - rewrite Hs0 in Hs1. destruct m as [|x m]; [congruence|].
      simpl in Hs1. injection Hs1 as -> _. reflexivity.
    - destruct (suf st) as [|y rest]; [reflexivity|]. simpl.
      rewrite andb_true_r. rewrite Hs1 in HR.
      change (c :: run ++ y :: rest) with ((c :: run) ++ y :: rest) in HR.
      rewrite (all_same_snoc c run Hall), <- app_assoc in HR.
      apply (pairs_mid R run c y rest HR). }
  destruct (sub_pairs false re_punct_run [TGrp 1] Hmin no_double_space
              no_double_space ltac:(intros; assumption)
              (Hkeep no_double_space)) with (s := s) (p := @nil ascii)
    as [Hhd Hnd]; [exact Hd|].
  destruct (sub_pairs false re_punct_run [TGrp 1] Hmin no_space_before_punct
              no_space_before_punct ltac:(intros; assumption)
              (Hkeep no_space_before_punct)) with (s := s) (p := @nil ascii)
    as [_ Hsp']; [exact Hsp|].
  destruct (sub_pairs false re_punct_run [TGrp 1] Hmin no_punct_before_letter
              no_punct_before_letter ltac:(intros; assumption)
              (Hkeep no_punct_before_letter)) with (s := s) (p := @nil ascii)
    as [_ Hpl']; [exact Hpl|].
  destruct (sub_pairs false re_punct_run [TGrp 1] Hmin any_pair
              no_repeated_punct)
    with (s := s) (p := @nil ascii) as [_ Hrp]; [| |apply pairs_any|].
  { intros p c y s0 Hm _. unfold no_repeated_punct.
    destruct (is_punct c) eqn:Ec; [|reflexivity].
    destruct (Ascii.eqb_spec c y) as [<-|]; [|reflexivity].
    exfalso. apply (punct_run_match_head p c s0 Ec Hm). }
  { intros p s0 st m Hm Hs0 Hne _.
    destruct (punct_run_match_shape p s0 st Hm)
      as (c & run & Hs1 & Hc & _ & _ & Hrest & ->).
    split.
    - rewrite Hs0 in Hs1. destruct m as [|x m]; [congruence|].
      simpl in Hs1. injection Hs1 as -> _. reflexivity.
    - destruct (suf st) as [|y rest]; [reflexivity|]. simpl in *.
      unfold no_repeated_punct. rewrite Hrest, andb_false_r. reflexivity. }
  assert (Hexp : forall p s st m,
            match_at false re_punct_run p s = Some st -> s = m ++ suf st ->
            exists q, expand [TGrp 1] st = [q] /\ is_space q = false).
  { intros p s0 st m Hm _.
    destruct (punct_run_match_shape p s0 st Hm)
      as (c & run & _ & Hc & _ & _ & _ & ->).
    exists c. split; [reflexivity|apply punct_not_space, Hc]. }
  destruct (sub_ends_clean false re_punct_run [TGrp 1] Hmin) with (s := s)
    (p := @nil ascii) as [_ Hend].
  { intros p s0 st m Hm Hs0.
    destruct (Hexp p s0 st m Hm Hs0) as (q & -> & Hq).
    split; [discriminate|]. unfold ends_clean. simpl. rewrite Hq.
    reflexivity. }
  split; [|repeat split; assumption]. repeat split.
  - apply (sub_forallb false re_punct_run [TGrp 1] Hmin plain_space);
      [|exact Hp].
    intros p s0 st m Hm Hs0 _.
    destruct (Hexp p s0 st m Hm Hs0) as (q & -> & Hq).
    simpl. unfold plain_space. rewrite Hq. reflexivity.
  - exact Hnd.
  - apply (starts_clean_hd _ s Hhd Hs).
  - apply Hend, He.
Qed.

(** ** Text on which the rewrite rules find nothing to do *)

Lemma rewrite_rules_settled : forall text, settled (rewrite_rules text).
Proof.
  intros text. unfold rewrite_rules.
  set (u := remove_fillers (collapse_spaces (strip text))).
  assert (H4 : single_spaced (strip (collapse_spaces u))).
  { destruct (collapse_shape u []) as (Hp & Hd & _).
    apply strip_single_spaced; assumption. }
  apply destutter_single_spaced in H4.
  apply tighten_shape in H4. destruct H4 as [H6 Hsp].
  destruct (space_after_shape _ H6 Hsp) as (H7 & Hsp7 & Hpl7).
  destruct (dedupe_shape _ H7 Hsp7 Hpl7) as (H8 & Hsp8 & Hpl8 & Hrp8).
  repeat split; try assumption; apply H8.
Qed.

Lemma add_period_cases_strong :
  forall t,
    add_period t = t \/
    (add_period t = t ++ [period] /\ t <> [] /\ has_terminal t = false).
Proof.
  intros t. unfold add_period. destruct t as [|c t]; [left; reflexivity|].
  destruct (has_terminal (c :: t)) eqn:Eh; [left; reflexivity|].
  simpl negb. cbv iota.
  destruct (Nat.ltb 40 (length (c :: t))); [right|left; reflexivity].
  repeat split. discriminate.
Qed.

Lemma pairs_snoc :
  forall R a x y,
    pairs R (a ++ [x]) = true -> R x y = true ->
    pairs R ((a ++ [x]) ++ [y]) = true.
Proof.
  intros R a x y Ha Hxy. rewrite <- app_assoc. simpl.
  apply pairs_join; [exact Ha|]. simpl. rewrite Hxy. reflexivity.
Qed.

Lemma ends_clean_last :
  forall a x, ends_clean (a ++ [x]) = true -> is_space x = false.
Proof.
  intros a x H. unfold ends_clean in H. rewrite rev_app_distr in H.
  simpl in H. apply negb_true_iff, H.
Qed.

Lemma no_terminal_last :
  forall a x, has_terminal (a ++ [x]) = false -> is_terminal x = false.
Proof.
  intros a x H. destruct (is_terminal x) eqn:E; [|reflexivity].
  exfalso. apply (has_terminal_false _ H). exists a, x, []. auto.
Qed.

Lemma add_period_settled : forall t, settled t -> settled (add_period t).
Proof.
  intros t Ht. destruct (add_period_cases_strong t) as [->|(-> & Hne & Hterm)];
    [exact Ht|].
  destruct (exists_last Hne) as (a & x & ->).
  destruct Ht as ((Hp & Hd & Hs & He) & Hsp & Hpl & Hrp).
  pose proof (ends_clean_last a x He) as Hx.
  pose proof (no_terminal_last a x Hterm) as Hxt.
  repeat split.
  - rewrite forallb_app, Hp. reflexivity.
  - apply pairs_snoc; [exact Hd|]. unfold no_double_space.
    rewrite Hx. reflexivity.
  - destruct a; exact Hs.
  - rewrite ends_clean_app by discriminate. reflexivity.
  - apply pairs_snoc; [exact Hsp|]. unfold no_space_before_punct.
    rewrite Hx. reflexivity.
  - apply pairs_snoc; [exact Hpl|]. unfold no_punct_before_letter.
    apply negb_true_iff, andb_false_r.
  - apply pairs_snoc; [exact Hrp|]. unfold no_repeated_punct.
    destruct (Ascii.eqb_spec x period) as [->|]; [discriminate Hxt|].
    rewrite andb_false_r. reflexivity.
Qed.

(** The cleaned text is settled. *)
Lemma light_cleanup_settled : forall text, settled (light_cleanup text).
Proof.
  intros text. apply add_period_settled, rewrite_rules_settled.
Qed.

Lemma no_match_identity :
  forall ic r tpl s,
    (forall a b st, s = a ++ b -> match_at ic r (rev a) b = Some st -> False) ->
    sub ic r tpl s = s.
Proof.
  intros ic r tpl s H. apply sub_identity. unfold search.
  apply search_from_all_none. intros a b Hs. rewrite app_nil_r.
  destruct (match_at ic r (rev a) b) as [st|] eqn:E; [|reflexivity].
  exfalso. apply (H a b st Hs E).
Qed.

Lemma tighten_identity :
  forall s, pairs no_space_before_punct s = true -> tighten_punct s = s.
Proof.
  intros s H. apply no_match_identity. intros a b st Hs Hm.
  destruct (space_punct_match_shape _ _ _ Hm)
    as (ws & q & Hb & Hne & Hws & Hq & _).
  destruct (exists_last Hne) as (ws' & x & ->).
  apply forallb_app_inv in Hws. destruct Hws as [_ Hx]. simpl in Hx.
  rewrite andb_true_r in Hx.
  rewrite Hs, Hb, <- !app_assoc, app_assoc in H. simpl in H.
  apply pairs_mid in H. unfold no_space_before_punct in H.
  rewrite Hx, Hq in H. discriminate.
Qed.

Lemma space_after_identity :
  forall s, pairs no_punct_before_letter s = true -> space_after_punct s = s.
Proof.
  intros s H. apply no_match_identity. intros a b st Hs Hm.
  destruct (punct_letter_match_shape _ _ _ Hm) as (q & l & Hb & Hq & Hl & _).
  rewrite Hs, Hb in H. apply pairs_mid in H.
  unfold no_punct_before_letter in H. rewrite Hq, Hl in H. discriminate.
Qed.

Lemma dedupe_identity :
  forall s, pairs no_repeated_punct s = true -> dedupe_punct s = s.
Proof.
  intros s H. apply no_match_identity. intros a b st Hs Hm.
  destruct (punct_run_match_shape _ _ _ Hm)
    as (c & run & Hb & Hc & Hne & Hall & _).
  destruct run as [|x run]; [congruence|].
  simpl in Hall. apply andb_prop in Hall. destruct Hall as [Hx _].
  rewrite Hs, Hb in H. simpl in H. apply pairs_mid in H.
  unfold no_repeated_punct in H. rewrite Hc, Hx in H. discriminate.
Qed.

Lemma rewrite_rules_identity :
  forall y,
    settled y ->
    search true re_filler y = None -> search true re_stutter y = None ->
    rewrite_rules y = y.
Proof.
  intros y ((Hp & Hd & Hs & He) & Hsp & Hpl & Hrp) Hf Hst.
  unfold rewrite_rules.
  assert (Hc : collapse_spaces y = y) by (apply collapse_identity; assumption).
  rewrite (strip_clean y Hs He), Hc.
  unfold remove_fillers. rewrite (sub_identity _ _ _ _ Hf).
  rewrite Hc, (strip_clean y Hs He).
  unfold destutter. rewrite (sub_identity _ _ _ _ Hst).
  rewrite (tighten_identity y Hsp), (space_after_identity y Hpl).
  apply dedupe_identity, Hrp.
Qed.

(** C2 (as stated): a second pass removes the filler the first pass left
    behind. *)
Lemma light_cleanup_not_idempotent :
  light_cleanup (py "um um so") = py "um so" /\
  light_cleanup (light_cleanup (py "um um so")) = py "so" /\
  light_cleanup (light_cleanup (py "um um so"))
    <> light_cleanup (py "um um so").
Proof.
  repeat split; try (vm_compute; reflexivity).
  vm_compute. discriminate.
Qed.

(** C2 (amended): when the cleaned text contains no further match of the
    filler pattern and no further immediately repeated word, cleaning it
    again returns it unchanged: the whitespace, punctuation and
    terminal-period rules never find new work on cleaned text.  Filler
    removal and de-stuttering replace non-overlapping matches in one pass
    from left to right, so they can leave such matches behind ("um um so"
    gives "um so", "a a a" gives "a a", "a.um b" gives "a. um b"). *)
Theorem light_cleanup_idempotent_when_settled :
  forall x : str,
    search true re_filler (light_cleanup x) = None ->
    search true re_stutter (light_cleanup x) = None ->
    light_cleanup (light_cleanup x) = light_cleanup x.
Proof.
  intros x Hf Hs. unfold light_cleanup at 1.
  rewrite (rewrite_rules_identity _ (light_cleanup_settled x) Hf Hs).
  unfold light_cleanup. apply add_period_idempotent.
Qed.

Lemma light_cleanup_idempotent_when_settled_witness :
  let x := py "um so today we we talk about caches, ok?" in
  search true re_filler (light_cleanup x) = None /\
  search true re_stutter (light_cleanup x) = None /\
  light_cleanup (light_cleanup x) = light_cleanup x.
Proof.
  intros x.
  assert (Hf : search true re_filler (light_cleanup x) = None)
    by (vm_compute; reflexivity).
  assert (Hs : search true re_stutter (light_cleanup x) = None)
    by (vm_compute; reflexivity).
  split; [exact Hf|]. split; [exact Hs|].
  exact (light_cleanup_idempotent_when_settled x Hf Hs).
Defined.

(** * Further properties *)

(** ** The cleaned text as a whole *)

Lemma match_at_nil :
  forall ic r p, 1 <= min_len r -> match_at ic r p [] = None.
Proof.
  intros ic r p Hmin. destruct (match_at ic r p []) as [st|] eqn:E;
    [|reflexivity].
  destruct (match_at_consumes ic r p [] st E) as (m & Hs & Hlen).
  destruct m; [simpl in Hlen; lia|discriminate].
Qed.

Lemma sub_nil :
  forall ic r tpl, 1 <= min_len r -> sub ic r tpl [] = [].
Proof.
  intros ic r tpl Hmin. unfold sub. cbn [sub_go].
  rewrite match_at_nil by exact Hmin. reflexivity.
Qed.

Lemma lstrip_app :
  forall a b,
    lstrip (a ++ b)
      = if forallb is_space a then lstrip b else lstrip a ++ b.
Proof.
  induction a as [|c a IH]; intros b; [reflexivity|].
  simpl. destruct (is_space c); [apply IH|reflexivity].
Qed.

Lemma lstrip_spaces : forall ws, forallb is_space ws = true -> lstrip ws = [].
Proof.
  intros ws H. rewrite <- (app_nil_r ws), lstrip_app, H. reflexivity.
Qed.

Lemma forallb_rev :
  forall (f : ascii -> bool) s, forallb f (rev s) = forallb f s.
Proof.
  intros f s. induction s as [|c s IH]; [reflexivity|].
  simpl. rewrite forallb_app, IH. simpl. rewrite andb_true_r.
  apply andb_comm.
Qed.

Lemma strip_outer_space :
  forall ws1 text ws2,
    forallb is_space ws1 = true -> forallb is_space ws2 = true ->
    strip (ws1 ++ text ++ ws2) = strip text.
Proof.
  intros ws1 text ws2 H1 H2. unfold strip.
  rewrite lstrip_app, H1, lstrip_app.
  destruct (forallb is_space text) eqn:Et.
  - rewrite (lstrip_spaces ws2 H2), (lstrip_spaces text Et). reflexivity.
  - unfold rstrip. rewrite rev_app_distr, lstrip_app, forallb_rev, H2.
    reflexivity.
Qed.

(** X1: whitespace around the input never matters. *)
Theorem light_cleanup_ignores_outer_space :
  forall ws1 text ws2 : str,
    forallb is_space ws1 = true -> forallb is_space ws2 = true ->
    light_cleanup (ws1 ++ text ++ ws2) = light_cleanup text.
Proof.
  intros ws1 text ws2 H1 H2. unfold light_cleanup, rewrite_rules.
  rewrite (strip_outer_space ws1 text ws2 H1 H2). reflexivity.
Qed.

Lemma light_cleanup_ignores_outer_space_witness :
  light_cleanup (py "  " ++ py "so it goes" ++ py " ")
    = light_cleanup (py "so it goes").
Proof.
  apply light_cleanup_ignores_outer_space; reflexivity.
Defined.

(** X2: a text of whitespace only is cleaned to the empty string. *)
Theorem light_cleanup_blank :
  forall text : str,
    forallb is_space text = true -> light_cleanup text = [].
Proof.
  intros text H. unfold light_cleanup, rewrite_rules, strip.
  rewrite (lstrip_spaces text H). vm_compute. reflexivity.
Qed.

(** X3: whitespace normalization finds nothing to do on its own result. *)
Theorem collapse_spaces_idempotent :
  forall t : str, collapse_spaces (collapse_spaces t) = collapse_spaces t.
Proof.
  intros t. destruct (collapse_shape t []) as (Hp & Hd & _).
  apply collapse_identity; assumption.
Qed.

(** X4: the cleaned text is in normal form: it neither begins nor ends with
    whitespace; a whitespace character in it is a single space followed by
    a character that is neither whitespace nor one of [,.;:!?]; and such a
    mark is followed neither by an ASCII letter nor by the same mark. *)
Theorem light_cleanup_normal_form :
  forall text : str,
    let y := light_cleanup text in
    starts_clean y = true /\ ends_clean y = true /\
    (forall a x b, y = a ++ x :: b -> is_space x = true -> x = space) /\
    (forall a x z b,
       y = a ++ x :: z :: b ->
       (is_space x = true -> is_space z = false /\ is_punct z = false) /\
       (is_punct x = true -> is_ascii_letter z = false /\ x <> z)).
Proof.
  intros text y.
  destruct (light_cleanup_settled text)
    as ((Hp & Hd & Hs & He) & Hsp & Hpl & Hrp).
  fold y in Hp, Hd, Hs, He, Hsp, Hpl, Hrp.
  split; [exact Hs|]. split; [exact He|]. split.
  - intros a x b Hy Hx. rewrite Hy in Hp.
    apply forallb_app_inv in Hp. destruct Hp as [_ Hp]. simpl in Hp.
    apply andb_prop in Hp. destruct Hp as [Hp _].
    apply plain_space_is_space; assumption.
  - intros a x z b Hy. rewrite Hy in Hd, Hsp, Hpl, Hrp.
    apply pairs_mid in Hd, Hsp, Hpl, Hrp.
    unfold no_double_space in Hd. unfold no_space_before_punct in Hsp.
    unfold no_punct_before_letter in Hpl. unfold no_repeated_punct in Hrp.
    split; intros Hx; rewrite Hx in *; simpl in *.
    + split; apply negb_true_iff; assumption.
    + apply negb_true_iff in Hpl, Hrp. split; [exact Hpl|].
      intros ->. rewrite Ascii.eqb_refl in Hrp. discriminate.
Qed.

(** X5: a cleaned text of more than 40 characters ends in [.], [!] or [?]. *)
Theorem long_cleanup_ends_terminal :
  forall text : str,
    40 < length (light_cleanup text) ->
    exists a c, light_cleanup text = a ++ [c] /\ is_terminal c = true.
Proof.
  intros text Hlen.
  destruct (light_cleanup_settled text) as ((_ & _ & _ & He) & _).
  unfold light_cleanup in *. set (t := rewrite_rules text) in *.
  destruct (add_period_cases_strong t) as [E|(E & _ & _)]; rewrite E in *.
  - unfold add_period in E. destruct t as [|c0 t0] eqn:Et; [simpl in Hlen; lia|].
    rewrite <- Et in *. destruct (has_terminal t) eqn:Eh.
    + apply has_terminal_iff in Eh. destruct Eh as (p & c & ws & Ht & Hc & Hws).
      destruct ws as [|w ws _] using rev_ind.
      * exists p, c. auto.
      * exfalso. rewrite Ht in He.
        change (p ++ c :: ws ++ [w]) with (p ++ (c :: ws) ++ [w]) in He.
        rewrite app_assoc in He. apply ends_clean_last in He.
        apply forallb_app_inv in Hws. destruct Hws as [_ Hw].
        simpl in Hw. rewrite He in Hw. discriminate.
    + simpl in E. destruct (Nat.ltb_spec 40 (length t)) as [H|H]; [|lia].
      exfalso. apply (f_equal (@length ascii)) in E.
      rewrite length_app in E. simpl in E. lia.
  - exists t, period. auto.
Qed.

Lemma long_cleanup_ends_terminal_witness :
  exists a c,
    light_cleanup (py "the quick brown fox jumps over the lazy dog today")
      = a ++ [c] /\ is_terminal c = true.
Proof.
  apply long_cleanup_ends_terminal. apply Nat.ltb_lt. vm_compute.
  reflexivity.
Defined.

Lemma light_cleanup_blank_witness :
  forallb is_space (py "   ") = true /\ light_cleanup (py "   ") = [].
Proof.
  split; [reflexivity|apply light_cleanup_blank; reflexivity].
Defined.

Lemma light_cleanup_normal_form_witness :
  let y := light_cleanup (py "well ,this is  it .ok") in
  y = py "well, this is it. ok" /\
  (is_space " "%char = true ->
   is_space "t"%char = false /\ is_punct "t"%char = false).
Proof.
  intros y. split; [vm_compute; reflexivity|].
  destruct (light_cleanup_normal_form (py "well ,this is  it .ok"))
    as (_ & _ & _ & Hpairs).
  exact (proj1 (Hpairs (py "well,") " "%char "t"%char (py "his is it. ok")
                  eq_refl)).
Defined.

(** ** What the rules may do to the characters *)


Lemma thinned_refl : forall s, thinned s s.
Proof. induction s; constructor; assumption. Qed.

Lemma thinned_drop_all : forall s, thinned [] s.
Proof. induction s; constructor; assumption. Qed.

Lemma thinned_app :
  forall o1 i1 o2 i2,
    thinned o1 i1 -> thinned o2 i2 -> thinned (o1 ++ o2) (i1 ++ i2).
Proof.
  intros o1 i1 o2 i2 H1 H2. induction H1; simpl;
    try (constructor; assumption). exact H2.
Qed.

Lemma thinned_trans :
  forall a b c, thinned a b -> thinned b c -> thinned a c.
Proof.
  intros a b c Hab Hbc. revert a Hab.
  induction Hbc as [|x b c Hbc IH|x b c Hbc IH|b c Hbc IH]; intros a Hab.
  - exact Hab.
  - apply thin_drop, IH, Hab.
  - remember (x :: b) as xb eqn:E.
    induction Hab as [|y a i Hab IHab|y a i Hab IHab|a i Hab IHab].
    + discriminate.
    + injection E as -> ->. apply thin_drop, IH, Hab.
    + injection E as -> ->. apply thin_keep, IH, Hab.
    + apply thin_space, IHab, E.
  - remember (space :: b) as xb eqn:E.
    induction Hab as [|y a i Hab IHab|y a i Hab IHab|a i Hab IHab].
    + discriminate.
    + injection E as -> ->. apply IH, Hab.
    + injection E as -> ->. apply thin_space, IH, Hab.
    + apply thin_space, IHab, E.
Qed.

Lemma sub_thinned :
  forall ic r tpl,
    1 <= min_len r ->
    (forall p s st m,
       match_at ic r p s = Some st -> s = m ++ suf st ->
       thinned (expand tpl st) m) ->
    forall s, thinned (sub ic r tpl s) s.
Proof.
  intros ic r tpl Hmin Hmatch s. unfold sub.
  apply (sub_go_ind ic r tpl Hmin (fun p s o => thinned o s)).
  - intros _. constructor.
  - intros p c s0 _ IH. apply thin_keep, IH.
  - intros p s0 st m Hm Hs _ IH.
    pose proof (Hmatch p s0 st m Hm Hs) as He. rewrite Hs.
    apply thinned_app; [exact He|exact IH].
Qed.

Lemma thinned_suffix : forall a b, thinned b (a ++ b).
Proof.
  intros a b. apply (thinned_app [] a b b);
    [apply thinned_drop_all|apply thinned_refl].
Qed.

Lemma thinned_prefix : forall a b, thinned a (a ++ b).
Proof.
  intros a b. rewrite <- (app_nil_r a) at 1.
  apply thinned_app; [apply thinned_refl|apply thinned_drop_all].
Qed.

Lemma strip_thinned : forall s, thinned (strip s) s.
Proof.
  intros s. unfold strip.
  destruct (lstrip_split s) as (ws & Hs & _).
  destruct (rstrip_split (lstrip s)) as (ws' & Hs' & _).
  remember (lstrip s) as u eqn:Eu. remember (rstrip u) as t eqn:Et.
  apply (thinned_trans t u s).
  - rewrite Hs'. apply thinned_prefix.
  - rewrite Hs. apply thinned_suffix.
Qed.

Lemma rewrite_rules_thinned : forall text, thinned (rewrite_rules text) text.
Proof.
  intros text. unfold rewrite_rules.
  assert (Hc : forall s, thinned (collapse_spaces s) s).
  { intros s. apply sub_thinned; [simpl; lia|].
    intros p s0 st m _ _. change (expand [TChr space] st) with [space].
    apply thin_space, thinned_drop_all. }
  assert (Hf : forall s, thinned (remove_fillers s) s).
  { intros s. apply sub_thinned; [simpl; lia|].
    intros p s0 st m Hm Hs.
    destruct (filler_match_shape p s0 st Hm)
      as (l & w & r & Hs' & _ & _ & _ & _ & _ & _ & ->).
    rewrite Hs in Hs'.
    replace (l ++ w ++ r ++ suf st) with ((l ++ w ++ r) ++ suf st) in Hs'
      by (rewrite <- !app_assoc; reflexivity).
    apply app_same_tail in Hs'. subst m.
    apply thinned_app; [apply thinned_refl|].
    apply (thinned_app [] w); [apply thinned_drop_all|apply thinned_refl]. }
  assert (Hd : forall s, thinned (destutter s) s).
  { intros s. apply sub_thinned; [simpl; lia|].
    intros p s0 st m Hm Hs.
    destruct (stutter_match_shape p s0 st Hm) as (w & tail & Hs' & _ & _ & ->).
    rewrite Hs, app_assoc in Hs'. apply app_same_tail in Hs'. subst m.
    apply thinned_prefix. }
  assert (Ht : forall s, thinned (tighten_punct s) s).
  { intros s. apply sub_thinned; [simpl; lia|].
    intros p s0 st m Hm Hs.
    destruct (space_punct_match_shape p s0 st Hm)
      as (ws & q & Hs' & _ & _ & _ & ->).
    rewrite Hs in Hs'. change (ws ++ q :: suf st)
      with (ws ++ [q] ++ suf st) in Hs'.
    rewrite app_assoc in Hs'. apply app_same_tail in Hs'. subst m.
    apply thinned_suffix. }
  assert (Ha : forall s, thinned (space_after_punct s) s).
  { intros s. apply sub_thinned; [simpl; lia|].
    intros p s0 st m Hm Hs.
    destruct (punct_letter_match_shape p s0 st Hm)
      as (q & l & Hs' & _ & _ & ->).
    rewrite Hs in Hs'. change (q :: l :: suf st)
      with ([q; l] ++ suf st) in Hs'.
    apply app_same_tail in Hs'. subst m.
    apply thin_keep, thin_space, thinned_refl. }
  assert (Hp : forall s, thinned (dedupe_punct s) s).
  { intros s. apply sub_thinned; [simpl; lia|].
    intros p s0 st m Hm Hs.
    destruct (punct_run_match_shape p s0 st Hm)
      as (c & run & Hs' & _ & _ & _ & _ & ->).
    rewrite Hs in Hs'. change (c :: run ++ suf st)
      with ((c :: run) ++ suf st) in Hs'.
    apply app_same_tail in Hs'. subst m.
    apply thin_keep, thinned_drop_all. }
  eapply thinned_trans; [apply Hp|].
  eapply thinned_trans; [apply Ha|].
  eapply thinned_trans; [apply Ht|].
  eapply thinned_trans; [apply Hd|].
  eapply thinned_trans; [apply strip_thinned|].
  eapply thinned_trans; [apply Hc|].
  eapply thinned_trans; [apply Hf|].
  eapply thinned_trans; [apply Hc|].
  apply strip_thinned.
Qed.

Lemma thinned_In :
  forall out inp, thinned out inp ->
    forall c, In c out -> c = space \/ In c inp.
Proof.
  intros out inp H. induction H as [|x o i H IH|x o i H IH|o i H IH];
    intros c Hc.
  - destruct Hc.
  - destruct (IH c Hc) as [E|E]; [left; exact E|right; right; exact E].
  - destruct Hc as [<-|Hc]; [right; left; reflexivity|].
    destruct (IH c Hc) as [E|E]; [left; exact E|right; right; exact E].
  - destruct Hc as [<-|Hc]; [left; reflexivity|apply IH, Hc].
Qed.

(** X6: the cleanup only deletes characters and inserts spaces, and may add
    one period at the end: it never changes a character into another one
    (other than whitespace into a space) and never reorders text.  So
    every character of the result is a space, a period or a character of
    the input. *)
Theorem light_cleanup_only_thins :
  forall text : str,
    (exists t : str,
       thinned t text /\
       (light_cleanup text = t \/ light_cleanup text = t ++ [period])) /\
    (forall c, In c (light_cleanup text) ->
               c = space \/ c = period \/ In c text).
Proof.
  intros text.
  pose proof (rewrite_rules_thinned text) as Ht.
  split.
  - exists (rewrite_rules text). split; [exact Ht|apply add_period_cases].
  - intros c Hc. unfold light_cleanup in Hc.
    destruct (add_period_cases (rewrite_rules text)) as [E|E];
      rewrite E in Hc.
    + destruct (thinned_In _ _ Ht c Hc); auto.
    + apply in_app_or in Hc. destruct Hc as [Hc|[<-|[]]]; [|auto].
      destruct (thinned_In _ _ Ht c Hc); auto.
Qed.

Lemma light_cleanup_only_thins_witness :
  In "s"%char (light_cleanup (py "um so")) /\
  ("s"%char = space \/ "s"%char = period \/ In "s"%char (py "um so")).
Proof.
  assert (H : In "s"%char (light_cleanup (py "um so")))
    by (vm_compute; auto).
  split; [exact H|].
  exact (proj2 (light_cleanup_only_thins (py "um so")) "s"%char H).
Defined.

(** ** More on the blocks *)










(** X9: every block carries the cleanup of the joined texts of one bin below
    the bin count; these texts are not empty and neither is the block
    text, which is in the normal form of cleaned text. *)
Theorem block_texts_are_cleaned :
  forall (s0 : Segment) (rest : list Segment) (k : Z) (blocks : list Block),
    k <> 0%Z ->
    build_blocks (s0 :: rest) k = Returns blocks ->
    let segments := s0 :: rest in
    let bin0 := anchor (seg_start s0) k in
    let nbins := Z.to_nat (bin_count (max_end s0 rest) bin0 k) in
    forall b, In b blocks ->
      exists i,
        i < nbins /\
        blk_start b = bin_start bin0 k i /\
        blk_end b = (blk_start b + k)%Z /\
        bin_texts segments k bin0 i <> [] /\
        blk_text b = light_cleanup (join [space] (bin_texts segments k bin0 i)) /\
        blk_text b <> [] /\ settled (blk_text b).
Proof.
  intros s0 rest k blocks Hk Hb segments bin0 nbins b Hin.
  rewrite build_blocks_bins in Hb by exact Hk. injection Hb as <-.
  apply in_flat_map in Hin. destruct Hin as (i & Hi & Hin).
  apply in_seq in Hi. fold bin0 in Hin. fold segments in Hin.
  exists i. split; [exact (proj2 Hi)|].
  unfold block_of in Hin.
  destruct (bin_texts segments k bin0 i) as [|t ts] eqn:Et; [destruct Hin|].
  destruct (light_cleanup (join [space] (t :: ts))) as [|c cs] eqn:Ec;
    [destruct Hin|].
  destruct Hin as [<-|[]]. cbn [blk_start blk_end blk_text].
  split; [reflexivity|]. split; [reflexivity|].
  split; [discriminate|]. split; [reflexivity|].
  split; [discriminate|].
  rewrite <- Ec. apply light_cleanup_settled.
Qed.

Lemma block_texts_are_cleaned_witness :
  exists i,
    i < 2 /\
    blk_text (mkBlock 30 60 (py "we talk about caches"))
      = light_cleanup (join [space] (bin_texts caches_segments 30 0 i)).
Proof.
  destruct (block_texts_are_cleaned (mkSegment 0 5 (py "um so today"))
              [mkSegment 5 33 (py "we we talk about caches")] 30
              [mkBlock 0 30 (py "so today we talk about caches");
               mkBlock 30 60 (py "we talk about caches")]
              ltac:(discriminate) ltac:(vm_compute; reflexivity)
              (mkBlock 30 60 (py "we talk about caches"))
              ltac:(right; left; reflexivity))
    as (i & Hi & _ & _ & _ & Ht & _).
  exists i. split; [exact Hi|exact Ht].
Defined.

Lemma join_blank :
  forall texts,
    (forall t, In t texts -> forallb is_space t = true) ->
    forallb is_space (join [space] texts) = true.
Proof.
  induction texts as [|t texts IH]; intros H; [reflexivity|].
  destruct texts as [|t' texts].
  - simpl. apply H. left. reflexivity.
  - change (join [space] (t :: t' :: texts))
      with (t ++ [space] ++ join [space] (t' :: texts)).
    rewrite !forallb_app, (H t (or_introl eq_refl)). simpl.
    apply IH. intros u Hu. apply H. right. exact Hu.
Qed.

(** X10: segments that carry no text, or whitespace only, give no block at
    all, and [main] stops with the "no transcript text" exit. *)
Theorem textless_segments_give_no_blocks :
  forall (segments : list Segment) (k : Z),
    k <> 0%Z ->
    (forall s, In s segments -> forallb is_space (seg_text s) = true) ->
    build_blocks segments k = Returns [] /\
    main_blocks segments k = Raises (SystemExit no_text_msg).
Proof.
  intros segments k Hk Hblank.
  assert (Hb : build_blocks segments k = Returns []).
  { destruct segments as [|s0 rest]; [reflexivity|].
    rewrite build_blocks_bins by exact Hk. f_equal.
    set (bin0 := anchor (seg_start s0) k).
    induction (seq 0 (Z.to_nat (bin_count (max_end s0 rest) bin0 k)))
      as [|i l IH]; [reflexivity|].
    simpl. rewrite IH, app_nil_r. unfold block_of.
    destruct (bin_texts (s0 :: rest) k bin0 i) as [|t ts] eqn:Et;
      [reflexivity|].
    assert (Hc : light_cleanup (join [space] (t :: ts)) = []);
      [|rewrite Hc; reflexivity].
    unfold light_cleanup, rewrite_rules, strip.
    rewrite (lstrip_spaces (join [space] (t :: ts)));
      [vm_compute; reflexivity|].
    apply join_blank. intros u Hu. rewrite <- Et in Hu.
    apply bin_texts_visited in Hu.
    destruct Hu as (_ & idx & s & _ & Hnth & <-).
    apply Hblank. eapply nth_error_In, Hnth. }
  split; [exact Hb|]. unfold main_blocks. rewrite Hb. reflexivity.
Qed.

Lemma textless_segments_give_no_blocks_witness :
  build_blocks [mkSegment 0 12 []; mkSegment 12 40 (py "  ")] 30
    = Returns [].
Proof.
  apply (textless_segments_give_no_blocks
           [mkSegment 0 12 []; mkSegment 12 40 (py "  ")] 30).
  - discriminate.
  - intros s [<-|[<-|[]]]; reflexivity.
Defined.


Lemma ends_sorted_nth :
  forall segments, ends_sorted segments ->
    forall i j si sj,
      i <= j -> nth_error segments i = Some si ->
      nth_error segments j = Some sj ->
      (seg_end si <= seg_end sj)%Q.
Proof.
  intros segments Hs. induction Hs as [|s0 rest Hs IH Hall];
    intros i j si sj Hij Hi Hj.
  - destruct i; discriminate.
  - destruct i as [|i], j as [|j]; simpl in Hi, Hj; try lia.
    + injection Hi as <-. injection Hj as <-. apply Qle_refl.
    + injection Hi as <-. rewrite Forall_forall in Hall.
      apply Hall. eapply nth_error_In, Hj.
    + apply (IH i j si sj); [lia|exact Hi|exact Hj].
Qed.

(** X11: when the segments are ordered by start and by end (as segments that
    follow one another are), a bin visits exactly the segments that
    overlap it: those that start before the bin ends and end after the
    bin starts. *)
Theorem scan_is_overlap_when_ends_sorted :
  forall (segments : list Segment) (k bin0 : Z),
    (0 < k)%Z -> starts_sorted segments -> ends_sorted segments ->
    forall i idx,
      visited segments k bin0 i idx = true <->
      exists s,
        nth_error segments idx = Some s /\
        (seg_start s < inject_Z (bin_start bin0 k i + k))%Q /\
        (inject_Z (bin_start bin0 k i) < seg_end s)%Q.
Proof.
  intros segments k bin0 Hk Hstarts Hends i idx. split.
  - intros Hv. apply visited_spec in Hv. destruct Hv as [Hle Hrun].
    destruct (Hrun idx (conj Hle (Nat.le_refl idx))) as (s & Hs & Hlt).
    exists s. split; [exact Hs|]. split; [exact Hlt|].
    destruct (Hrun (cursor segments k bin0 i)
                (conj (Nat.le_refl _) Hle)) as (sc & Hsc & _).
    eapply Qlt_le_trans; [apply (cursor_stop segments k bin0 i sc Hsc)|].
    apply (ends_sorted_nth segments Hends _ idx sc s Hle Hsc Hs).
  - intros (s & Hs & Hstart & Hend).
    apply (visited_overlap segments k bin0 i idx s); assumption.
Qed.

Lemma scan_is_overlap_when_ends_sorted_witness :
  visited caches_segments 30 0 1 1 = true.
Proof.
  assert (Hk : (0 < 30)%Z) by reflexivity.
  assert (Hs : starts_sorted caches_segments)
    by (repeat constructor; vm_compute; discriminate).
  assert (He : ends_sorted caches_segments)
    by (repeat constructor; vm_compute; discriminate).
  apply (scan_is_overlap_when_ends_sorted caches_segments 30 0 Hk Hs He 1 1).
  exists (mkSegment 5 33 (py "we we talk about caches")).
  split; [reflexivity|]. split; reflexivity.
Defined.

(** ** Timestamps of the rows *)















Lemma anchor_nonneg :
  forall (x : Q) (k : Z), (0 < k)%Z -> (0 <= x)%Q -> (0 <= anchor x k)%Z.
Proof.
  intros x k Hk Hx. unfold anchor.
  pose proof (inject_Z_pos k Hk) as HK.
  apply Z.mul_nonneg_nonneg; [|lia].
  change 0%Z with (Qfloor 0). apply Qfloor_resp_le.
  apply Qle_shift_div_l; [exact HK|lra].
Qed.



(** ** Loading the segments *)


Lemma max_end_in :
  forall s0 rest, exists s, In s (s0 :: rest) /\ max_end s0 rest = seg_end s.
Proof.
  intros s0 rest. unfold max_end.
  assert (H : forall l m,
            (exists s, In s (s0 :: rest) /\ m = seg_end s) ->
            (forall s, In s l -> In s (s0 :: rest)) ->
            exists s, In s (s0 :: rest) /\
              fold_left (fun m s => if Qlt_bool m (seg_end s)
                                    then seg_end s else m) l m
                = seg_end s).
  { induction l as [|x l IH]; intros m Hm Hl; [exact Hm|].
    cbn [fold_left]. apply IH.
    - destruct (Qlt_bool m (seg_end x)); [|exact Hm].
      exists x. split; [apply Hl; left; reflexivity|reflexivity].
    - intros s Hs. apply Hl. right. exact Hs. }
  apply H.
  - exists s0. split; [left; reflexivity|reflexivity].
  - intros s Hs. right. exact Hs.
Qed.

Lemma build_blocks_nonpos :
  forall s0 rest k,
    (0 < k)%Z ->
    (bin_count (max_end s0 rest) (anchor (seg_start s0) k) k <= 0)%Z ->
    build_blocks (s0 :: rest) k = Returns [].
Proof.
  intros s0 rest k Hk Hn. unfold build_blocks.
  destruct (Z.eqb_spec k 0) as [E|_]; [lia|].
  replace (Z.to_nat _) with 0 by lia. reflexivity.
Qed.

Section LoadingFacts.

Variable to_float : str -> option Q.
Variable to_str : json -> str.


Lemma py_float_no_value_error :
  forall v msg, py_float to_float v <> Fails (ValueError msg).
Proof.
  intros v msg. destruct v; simpl; try discriminate.
  destruct (to_float s); discriminate.
Qed.

Lemma load_segment_no_value_error :
  forall s msg, load_segment to_float to_str s <> Fails (ValueError msg).
Proof.
  intros s msg. destruct s; cbn [load_segment]; try discriminate.
  destruct (py_float to_float (dict_get items (py "start") (JFloat 0)))
    as [t0|e0] eqn:E0.
  - destruct (py_float to_float (dict_get items (py "end") (JFloat 0)))
      as [t1|e1] eqn:E1; [discriminate|].
    intros H. injection H as ->. exact (py_float_no_value_error _ _ E1).
  - intros H. injection H as ->. exact (py_float_no_value_error _ _ E0).
Qed.

Lemma load_segments_no_value_error :
  forall entries msg, load_segments to_float to_str entries <> Fails (ValueError msg).
Proof.
  induction entries as [|s entries IH]; intros msg; [discriminate|].
  cbn [load_segments].
  destruct (load_segment to_float to_str s) as [seg|e] eqn:E.
  - destruct (load_segments to_float to_str entries) as [segs|e'] eqn:E'; [discriminate|].
    intros H. injection H as ->. exact (IH msg eq_refl).
  - intros H. injection H as ->. exact (load_segment_no_value_error _ _ E).
Qed.

Lemma load_segments_forall2 :
  forall entries segs,
    load_segments to_float to_str entries = Loaded segs <->
    Forall2 (fun e s => load_segment to_float to_str e = Loaded s) entries segs.
Proof.
  induction entries as [|e entries IH]; intros segs.
  - simpl. split.
    + intros H. injection H as <-. constructor.
    + intros H. inversion H. reflexivity.
  - simpl. split.
    + destruct (load_segment to_float to_str e) as [seg|x] eqn:E; [|discriminate].
      destruct (load_segments to_float to_str entries) as [segs'|x] eqn:E'; [|discriminate].
      intros H. injection H as <-. constructor; [exact E|].
      apply IH. reflexivity.
    + intros H. inversion H as [|e' s' es' ss' Hs Hrest]; subst.
      rewrite Hs. apply IH in Hrest. rewrite Hrest. reflexivity.
Qed.

Lemma load_whisper_json_obj :
  forall items,
    load_whisper_json to_float to_str (JObj items)
      = match dict_lookup items (py "segments") with
        | Some (JArr entries) => load_segments to_float to_str entries
        | _ => Fails (ValueError not_whisper_msg)
        end.
Proof.
  intros items. unfold load_whisper_json, py_in.
  destruct (dict_lookup items (py "segments")) as [v|]; reflexivity.
Qed.

Lemma strip_is_clean :
  forall s, starts_clean (strip s) = true /\ ends_clean (strip s) = true.
Proof.
  intros s. unfold strip.
  destruct (lstrip_split s) as (ws & Hs & Hws & Hc).
  destruct (rstrip_split (lstrip s)) as (ws' & Hs' & Hws' & Hc').
  split; [|exact Hc'].
  destruct (rstrip (lstrip s)) as [|c r] eqn:E; [reflexivity|].
  rewrite Hs' in Hc. exact Hc.
Qed.

(** X14: the [ValueError] about the missing list is raised for a top-level
    object exactly when it has no list under [segments]; no entry of the
    list, however malformed, leads to it. *)
Theorem load_rejects_missing_segments :
  forall items,
    load_whisper_json to_float to_str (JObj items) = Fails (ValueError not_whisper_msg)
    <-> (forall entries,
           dict_lookup items (py "segments") <> Some (JArr entries)).
Proof.
  intros items. rewrite load_whisper_json_obj. split.
  - intros H entries E. rewrite E in H.
    exact (load_segments_no_value_error _ _ H).
  - intros H. destruct (dict_lookup items (py "segments")) as [v|];
      [|reflexivity].
    destruct v; try reflexivity. exfalso. exact (H items0 eq_refl).
Qed.

(** X15: a successful load keeps the entries: the value is an object with a
    list under [segments], the segments are those of the entries, one for
    one and in order, and no text begins or ends with white space. *)
Theorem load_keeps_entries :
  forall data segs,
    load_whisper_json to_float to_str data = Loaded segs ->
    exists items entries,
      data = JObj items /\
      dict_lookup items (py "segments") = Some (JArr entries) /\
      Forall2 (fun e s => load_segment to_float to_str e = Loaded s) entries segs /\
      length segs = length entries /\
      Forall (fun s => starts_clean (seg_text s) = true /\
                       ends_clean (seg_text s) = true) segs.
Proof.
  intros data segs H.
  destruct data as [|b|n|q|s|l|items];
    try (unfold load_whisper_json in H;
         simpl in H; discriminate).
  - unfold load_whisper_json in H.
    simpl in H. destruct (is_infix _ s); discriminate.
  - unfold load_whisper_json in H.
    simpl in H. destruct (existsb _ l); discriminate.
  - rewrite load_whisper_json_obj in H.
    destruct (dict_lookup items (py "segments")) as [v|] eqn:E;
      [|discriminate].
    destruct v as [| | | | |entries|]; try discriminate.
    exists items, entries. split; [reflexivity|]. split; [exact E|].
    apply load_segments_forall2 in H. split; [exact H|].
    split; [symmetry; eapply Forall2_length; exact H|].
    clear E. induction H as [|e s es ss Hs _ IH]; constructor; [|exact IH].
    destruct e; cbn [load_segment] in Hs; try discriminate.
    destruct (py_float to_float _); [|discriminate].
    destruct (py_float to_float _); [|discriminate].
    injection Hs as <-. cbn [seg_text]. apply strip_is_clean.
Qed.


Lemma load_segment_default_end :
  forall fields s,
    dict_lookup fields (py "end") = None ->
    load_segment to_float to_str (JObj fields) = Loaded s ->
    seg_end s = 0%Q.
Proof.
  intros fields s Hno Hs. cbn [load_segment] in Hs.
  destruct (py_float to_float (dict_get fields (py "start") (JFloat 0)));
    [|discriminate].
  unfold dict_get at 1 in Hs. rewrite Hno in Hs. cbn [py_float] in Hs.
  injection Hs as <-. reflexivity.
Qed.

(** X17: entries without [end] give no document: every end is then the
    default zero, so when the first segment starts at zero or later no
    bin is scanned and [main] stops with its message, whatever the texts
    say. *)
Theorem entries_without_end_give_no_document :
  forall items entries segs (k : Z),
    (0 < k)%Z ->
    dict_lookup items (py "segments") = Some (JArr entries) ->
    (forall fields, In (JObj fields) entries ->
                    dict_lookup fields (py "end") = None) ->
    load_whisper_json to_float to_str (JObj items) = Loaded segs ->
    (forall s0, hd_error segs = Some s0 -> (0 <= seg_start s0)%Q) ->
    Forall (fun s => seg_end s = 0%Q) segs /\
    main_blocks segs k = Raises (SystemExit no_text_msg).
Proof.
  intros items entries segs k Hk E Hno Hload H0.
  rewrite load_whisper_json_obj, E in Hload.
  apply load_segments_forall2 in Hload.
  assert (Hends : Forall (fun s => seg_end s = 0%Q) segs).
  { clear E H0. induction Hload as [|e s es ss Hs _ IH]; constructor.
    - destruct e as [| | | | | |fields];
        try (cbn [load_segment] in Hs; discriminate).
      apply (load_segment_default_end fields s); [|exact Hs].
      apply Hno. left. reflexivity.
    - apply IH. intros fields Hin. apply Hno. right. exact Hin. }
  split; [exact Hends|].
  destruct segs as [|s0 rest]; [reflexivity|].
  unfold main_blocks.
  rewrite (build_blocks_nonpos s0 rest k Hk); [reflexivity|].
  apply bin_count_nonpos; [exact Hk|].
  destruct (max_end_in s0 rest) as (s & Hin & ->).
  rewrite Forall_forall in Hends. rewrite (Hends s Hin).
  change 0%Q with (inject_Z 0). rewrite <- Zle_Qle.
  apply anchor_nonneg; [exact Hk|].
  apply H0. reflexivity.
Qed.

End LoadingFacts.

Lemma load_keeps_entries_witness :
  exists items entries,
    JObj [(py "segments",
           JArr [JObj [(py "start", JInt 0); (py "end", JFloat (11 # 2));
                       (py "text", JStr (py " um so today "))]])]
      = JObj items /\
    dict_lookup items (py "segments") = Some (JArr entries) /\
    Forall2 (fun e s => load_segment (fun _ => None) (fun _ => []) e
                          = Loaded s)
            entries [mkSegment 0 (11 # 2) (py "um so today")] /\
    length [mkSegment 0 (11 # 2) (py "um so today")] = length entries /\
    Forall (fun s => starts_clean (seg_text s) = true /\
                     ends_clean (seg_text s) = true)
           [mkSegment 0 (11 # 2) (py "um so today")].
Proof.
  apply (load_keeps_entries (fun _ => None) (fun _ => [])). reflexivity.
Defined.


Lemma entries_without_end_give_no_document_witness :
  Forall (fun s => seg_end s = 0%Q)
         [mkSegment 5 0 (py "hello"); mkSegment 9 0 (py "there")] /\
  main_blocks [mkSegment 5 0 (py "hello"); mkSegment 9 0 (py "there")] 30
    = Raises (SystemExit no_text_msg).
Proof.
  apply (entries_without_end_give_no_document (fun _ => None) (fun _ => [])
           [(py "segments",
             JArr [JObj [(py "start", JInt 5); (py "text", JStr (py "hello"))];
                   JObj [(py "start", JInt 9);
                         (py "text", JStr (py "there "))]])]
           [JObj [(py "start", JInt 5); (py "text", JStr (py "hello"))];
            JObj [(py "start", JInt 9); (py "text", JStr (py "there "))]]);
    [reflexivity|reflexivity| |reflexivity|].
  - intros fields [H|[H|[]]]; injection H as <-; reflexivity.
  - intros s0 H. injection H as <-. unfold Qle; simpl; lia.
Defined.

(** ** Repeated words *)

Lemma run_seq :
  forall ic r1 r2 st k,
    run ic (Seq r1 r2) st k = run ic r1 st (fun st' => run ic r2 st' k).
Proof. reflexivity. Qed.

Lemma run_grp :
  forall ic n r st k,
    run ic (Grp n r) st k
      = run ic r st (fun st' => k (set_cap n (consumed st st') st')).
Proof. reflexivity. Qed.

Lemma run_wordb :
  forall ic st k,
    run ic WordB st k
      = if xorb (word_at (hd_error (pre st))) (word_at (hd_error (suf st)))
        then k st else None.
Proof. reflexivity. Qed.

Lemma run_ref :
  forall ic n st k,
    run ic (Ref n) st k
      = match get_cap n (caps st) with
        | Some w =>
            match eat ic w (pre st) (suf st) with
            | Some (p', s') => k (MState p' s' (caps st))
            | None => None
            end
        | None => None
        end.
Proof. reflexivity. Qed.

Lemma many1_longest :
  forall q k w rest pr cs r,
    w <> [] -> forallb q w = true -> not_at q rest ->
    k (MState (rev w ++ pr) rest cs) = Some r ->
    many1 q k pr (w ++ rest) cs = Some r.
Proof.
  intros q k w. induction w as [|x w IH]; intros rest pr cs r Hne Hq Hna Hk;
    [congruence|].
  simpl in Hq. apply andb_prop in Hq as [Hx Hq].
  cbn [app many1]. rewrite Hx.
  destruct w as [|y w].
  - cbn [app]. rewrite (many1_none q k (x :: pr) rest cs Hna). exact Hk.
  - rewrite (IH rest (x :: pr) cs r); [reflexivity|discriminate|exact Hq
                                      |exact Hna|].
    rewrite <- Hk. do 2 f_equal. cbn [rev]. rewrite <- !app_assoc.
    reflexivity.
Qed.

Lemma eat_same :
  forall w w' p rest,
    map lower w' = map lower w ->
    eat true w p (w' ++ rest) = Some (rev w' ++ p, rest).
Proof.
  induction w as [|c w IH]; intros [|x w'] p rest E; try discriminate.
  - reflexivity.
  - cbn [map] in E. injection E as Ex E.
    cbn [eat app]. unfold eq_char. rewrite Ex, Ascii.eqb_refl.
    rewrite (IH w' (x :: p) rest E). cbn [rev]. rewrite <- app_assoc.
    reflexivity.
Qed.

Lemma is_word_lower : forall c, is_word (lower c) = is_word c.
Proof. intros [[] [] [] [] [] [] [] []]; vm_compute; reflexivity. Qed.

Lemma same_word :
  forall w w',
    map lower w' = map lower w -> forallb is_word w = true ->
    forallb is_word w' = true.
Proof.
  induction w as [|c w IH]; intros [|x w'] E H; try discriminate;
    [reflexivity|].
  cbn [map] in E. injection E as Ex E.
  cbn [forallb] in H |- *. apply andb_prop in H as [Hc H].
  rewrite (IH w' E H), andb_true_r.
  rewrite <- is_word_lower, Ex, is_word_lower. exact Hc.
Qed.

Lemma space_not_word : forall c, is_space c = true -> is_word c = false.
Proof.
  intros c H. destruct (is_word c) eqn:E; [|reflexivity].
  rewrite (word_not_space c E) in H. discriminate.
Qed.

Lemma consumed_app :
  forall p w s cs s' cs',
    consumed (MState p s cs) (MState (rev w ++ p) s' cs') = w.
Proof.
  intros p w s cs s' cs'. unfold consumed. cbn [pre].
  rewrite length_app, length_rev.
  replace (length w + length p - length p) with (length (rev w))
    by (rewrite length_rev; lia).
  rewrite firstn_app, Nat.sub_diag, firstn_all. cbn [firstn].
  rewrite app_nil_r. apply rev_involutive.
Qed.

Lemma hd_rev_word :
  forall w p, w <> [] -> forallb is_word w = true ->
    word_at (hd_error (rev w ++ p)) = true.
Proof.
  intros w p Hne Hw. destruct (exists_last Hne) as (w0 & c & ->).
  rewrite rev_app_distr. cbn [rev app hd_error word_at].
  rewrite forallb_app in Hw. apply andb_prop in Hw as [_ Hc].
  cbn [forallb] in Hc. rewrite andb_true_r in Hc. exact Hc.
Qed.

Lemma not_at_word :
  forall rest, not_at is_word rest -> word_at (hd_error rest) = false.
Proof. intros [|c rest] H; [reflexivity|exact H]. Qed.

Lemma match_stutter :
  forall p w ws w' rest,
    word_at (hd_error p) = false ->
    w <> [] -> forallb is_word w = true ->
    ws <> [] -> forallb is_space ws = true ->
    map lower w' = map lower w -> not_at is_word rest ->
    match_at true re_stutter p (w ++ ws ++ w' ++ rest)
      = Some (MState (rev w' ++ rev ws ++ rev w ++ p) rest [(1, w)]).
Proof.
  intros p w ws w' rest Hp Hne Hw Hnes Hws Hsame Hrest.
  pose proof (same_word w w' Hsame Hw) as Hw'.
  assert (Hne' : w' <> []).
  { intros ->. destruct w; [congruence|discriminate]. }
  unfold match_at, re_stutter, seqs.
  rewrite run_seq, run_wordb. cbn [pre suf]. rewrite Hp.
  assert (Hhd : word_at (hd_error (w ++ ws ++ w' ++ rest)) = true).
  { destruct w as [|x w]; [congruence|]. cbn [forallb] in Hw.
    apply andb_prop in Hw as [Hx _]. exact Hx. }
  rewrite Hhd. cbn [xorb].
  cbv beta. rewrite run_seq, run_grp, run_plus_cls. cbn [pre suf caps].
  apply many1_longest; [exact Hne|exact Hw| |].
  { destruct ws as [|c ws]; [congruence|]. cbn [forallb] in Hws.
    apply andb_prop in Hws as [Hc _]. apply space_not_word, Hc. }
  cbv beta. rewrite consumed_app. unfold set_cap. cbn [pre suf caps].
  rewrite run_seq, run_plus_cls. cbn [pre suf caps].
  apply many1_longest; [exact Hnes|exact Hws| |].
  { destruct w' as [|c w']; [congruence|]. cbn [forallb] in Hw'.
    apply andb_prop in Hw' as [Hc _]. apply word_not_space, Hc. }
  cbv beta. rewrite run_seq, run_ref. cbn [pre suf caps get_cap Nat.eqb].
  rewrite (eat_same w w' _ rest Hsame).
  cbv beta. rewrite run_wordb. cbn [pre suf].
  rewrite (hd_rev_word w' _ Hne' Hw'), (not_at_word rest Hrest).
  reflexivity.
Qed.

Lemma sub_go_all_none :
  forall ic r tpl s p,
    (forall a b, s = a ++ b -> match_at ic r (rev a ++ p) b = None) ->
    sub_go ic r tpl 0 p s = s.
Proof.
  intros ic r tpl. induction s as [|c s IH]; intros p H.
  - cbn [sub_go]. pose proof (H [] [] eq_refl) as H0. cbn [rev app] in H0.
    rewrite H0. reflexivity.
  - rewrite sub_go_no_match by exact (H [] (c :: s) eq_refl).
    rewrite IH; [reflexivity|].
    intros a b E. specialize (H (c :: a) b). cbn [rev] in H.
    rewrite <- app_assoc in H. apply H. rewrite E. reflexivity.
Qed.

Lemma stutter_match_parts :
  forall p s st,
    match_at true re_stutter p s = Some st ->
    exists w ws tail,
      s = w ++ ws ++ tail /\ w <> [] /\ forallb is_word w = true /\
      ws <> [] /\ forallb is_space ws = true.
Proof.
  intros p s st Hm. apply match_at_sound in Hm.
  unfold re_stutter, seqs in Hm.
  apply matches_seq_inv in Hm. destruct Hm as (s1 & H1 & Hm).
  apply matches_wordb_inv in H1. destruct H1 as [-> _].
  apply matches_seq_inv in Hm. destruct Hm as (s2 & H2 & Hm).
  apply matches_grp_inv in H2. destruct H2 as (sa & Ha & ->).
  apply matches_seq_inv in Hm. destruct Hm as (s3 & H3 & _).
  apply matches_plus_cls in Ha. destruct Ha as (w & Hw & Hne & Hword & _).
  apply matches_plus_cls in H3.
  destruct H3 as (ws & Hws & Hnes & Hspace & _).
  exists w, ws, (suf s3). repeat split; try assumption.
  destruct Hw as [_ Hw], Hws as [_ Hws]. simpl in *.
  rewrite Hw, Hws. reflexivity.
Qed.

(** X18: a word said twice is said once: the second copy, in whatever case,
    goes with the white space before it. *)
Theorem destutter_pair :
  forall w ws w',
    w <> [] -> forallb is_word w = true ->
    ws <> [] -> forallb is_space ws = true ->
    map lower w' = map lower w ->
    destutter (w ++ ws ++ w') = w.
Proof.
  intros w ws w' Hne Hw Hnes Hws Hsame.
  pose proof (match_stutter [] w ws w' [] eq_refl Hne Hw Hnes Hws Hsame I)
    as Hm.
  rewrite app_nil_r in Hm.
  unfold destutter, sub.
  rewrite (sub_go_match true re_stutter [TGrp 1] [] (w ++ ws ++ w') _
             (w ++ ws ++ w') Hm);
    [|cbn [suf]; rewrite app_nil_r; reflexivity
     |destruct w; [congruence|discriminate]].
  cbn [suf sub_go]. rewrite match_at_nil by (vm_compute; lia).
  unfold expand. cbn. rewrite !app_nil_r. reflexivity.
Qed.

Lemma destutter_pair_witness :
  destutter (py "The" ++ py "  " ++ py "the") = py "The".
Proof.
  apply (destutter_pair (py "The") (py "  ") (py "the"));
    [discriminate|reflexivity|discriminate|reflexivity|reflexivity].
Defined.

(** X19: the substitution is one pass: after a repeated pair the scan resumes
    behind it, so a further word - a third copy included - is kept. *)
Theorem destutter_keeps_third_copy :
  forall w ws w' ws' v,
    w <> [] -> forallb is_word w = true ->
    ws <> [] -> forallb is_space ws = true ->
    map lower w' = map lower w ->
    ws' <> [] -> forallb is_space ws' = true ->
    forallb is_word v = true ->
    destutter (w ++ ws ++ w' ++ ws' ++ v) = w ++ ws' ++ v.
Proof.
  intros w ws w' ws' v Hne Hw Hnes Hws Hsame Hnes' Hws' Hv.
  assert (Hrest : not_at is_word (ws' ++ v)).
  { destruct ws' as [|c ws']; [congruence|]. cbn [forallb] in Hws'.
    apply andb_prop in Hws' as [Hc _]. apply space_not_word, Hc. }
  pose proof (match_stutter [] w ws w' (ws' ++ v) eq_refl Hne Hw Hnes Hws
                Hsame Hrest) as Hm.
  unfold destutter, sub.
  rewrite (sub_go_match true re_stutter [TGrp 1] [] _ _ (w ++ ws ++ w') Hm);
    [|cbn [suf]; rewrite <- !app_assoc; reflexivity
     |destruct w; [congruence|discriminate]].
  cbn [suf]. unfold expand at 1. cbn [flat_map get_cap caps Nat.eqb].
  rewrite !app_nil_r. f_equal.
  apply sub_go_all_none. intros a b E.
  destruct (match_at true re_stutter (rev a ++ rev (w ++ ws ++ w')) b)
    as [st|] eqn:Em; [exfalso|reflexivity].
  destruct (stutter_match_parts _ _ _ Em)
    as (x & sp & tl & -> & Hx & Hxw & Hsp & Hsps).
  destruct x as [|x0 x]; [congruence|]. destruct sp as [|s0 sp]; [congruence|].
  cbn [forallb] in Hxw, Hsps.
  apply andb_prop in Hxw as [Hx0 _]. apply andb_prop in Hsps as [Hs0 _].
  assert (Hall : forall m, v = m ++ (x0 :: x) ++ (s0 :: sp) ++ tl -> False).
  { intros m Ev. rewrite Ev in Hv. rewrite !forallb_app in Hv.
    apply andb_prop in Hv as [_ Hv]. apply andb_prop in Hv as [_ Hv].
    apply andb_prop in Hv as [Hv _]. cbn [forallb] in Hv.
    apply andb_prop in Hv as [Hv _].
    rewrite (space_not_word s0 Hs0) in Hv. discriminate. }
  symmetry in E. apply app_eq_app in E.
  destruct E as (m & [[Ea Ev]|[Ews Eb]]).
  - exact (Hall m Ev).
  - destruct m as [|c m].
    + cbn [app] in Eb. apply (Hall []). rewrite <- Eb. reflexivity.
    + cbn [app] in Eb. injection Eb as <- _.
      rewrite Ews, forallb_app in Hws'. apply andb_prop in Hws' as [_ Hc].
      cbn [forallb] in Hc. apply andb_prop in Hc as [Hc _].
      rewrite (word_not_space x0 Hx0) in Hc. discriminate.
Qed.

Lemma destutter_keeps_third_copy_witness :
  destutter (py "we" ++ py " " ++ py "We" ++ py " " ++ py "we")
    = py "we" ++ py " " ++ py "we".
Proof.
  apply (destutter_keeps_third_copy (py "we") (py " ") (py "We") (py " ")
           (py "we"));
    (discriminate || reflexivity).
Defined.
